(** * A shallow embedding of the ergodic trajectory optimiser

    Source: SimulationCode/ErgodicHarvestingLib/ergodic.py and
    SimulationCode/ErgodicHarvestingLib/SimulationMainQueue.py.

    Floating-point numbers are modelled by exact rationals [Q]; the numpy
    arrays of the scalar case (nx = nu = 1) are lists of [Q].  Equality of
    numbers is [Qeq] ([==]); equality of arrays is [Forall2 Qeq]. *)

From Stdlib Require Import ZArith QArith Qminmax Qabs Qpower Qround Lqa List Lia.
Import ListNotations.

Local Open Scope Q_scope.

(** ** Array helpers (numpy) *)

(** [np.sum] *)
Fixpoint npsum (xs : list Q) : Q :=
  match xs with
  | [] => 0
  | x :: xs' => x + npsum xs'
  end.

(** [np.mean]: sum divided by the number of elements. *)
Definition npmean (xs : list Q) : Q := npsum xs / inject_Z (Z.of_nat (length xs)).

(** [np.max]; [None] stands for the ValueError numpy raises on an empty array. *)
Fixpoint npmax (xs : list Q) : option Q :=
  match xs with
  | [] => None
  | x :: xs' =>
      match npmax xs' with
      | None => Some x
      | Some m => Some (if Qle_bool x m then m else x)
      end
  end.

(** [scipy.integrate.trapz(y, x)]:  sum of (x[i+1]-x[i]) * (y[i]+y[i+1]) / 2. *)
Fixpoint trapz (y x : list Q) : Q :=
  match y, x with
  | y0 :: ((y1 :: _) as yr), x0 :: ((x1 :: _) as xr) =>
      (x1 - x0) * (y0 + y1) / 2 + trapz yr xr
  | _, _ => 0
  end.

(** Elementwise equality of arrays. *)
Definition arr_eq : list Q -> list Q -> Prop := Forall2 Qeq.

(** ** ErgodicOpt: spectral weights and the ergodic metric *)

Module Ergodic.

(** [self.dimw = 1] *)
Definition dimw : Z := 1.

(** [s = (float(self.dimw) + 1.0) / 2.0]; for [dimw = 1] it is the
    integer 1, so the power [** s] is an integer power. *)
Definition s : Z := (dimw + 1) / 2.

(** [self.Lambdak = 1.0 / (1.0 + klist ** 2) ** s] with
    [klist = np.arange(self.Nfourier)]. *)
Definition Lambdak_at (k : nat) : Q :=
  1 / ((1 + inject_Z (Z.of_nat k) ^ 2) ^ s).

Definition Lambdak (Nfourier : nat) : list Q := map Lambdak_at (seq 0 Nfourier).

(** [np.sum(self.Lambdak * (self.ck - self.uk) ** 2)] for arrays of the
    same length. *)
Fixpoint erg_sum (lam ck uk : list Q) : Q :=
  match lam, ck, uk with
  | l :: lam', c :: ck', u :: uk' => l * ((c - u) ^ 2) + erg_sum lam' ck' uk'
  | _, _, _ => 0
  end.

Definition calculate_ergodicity (Nfourier : nat) (ck uk : list Q) : Q :=
  erg_sum (Lambdak Nfourier) ck uk.

End Ergodic.

(** ** Comparisons and one-dimensional linear interpolation *)

Definition Qltb (a b : Q) : bool := negb (Qle_bool b a).

(** The interpolation itself: the first segment [x0, x1] with [t <= x1].
    ([Qred] only normalises the representation of the rational.) *)
Fixpoint interp_seg (xs ys : list Q) (t : Q) : option Q :=
  match xs, ys with
  | x0 :: ((x1 :: _) as xr), y0 :: ((y1 :: _) as yr) =>
      if Qle_bool t x1 then Some (Qred (y0 + (t - x0) * (y1 - y0) / (x1 - x0)))
      else interp_seg xr yr t
  | _, _ => None
  end.

(** [scipy.interpolate.interp1d(xs, ys)(t)] with its default
    [bounds_error=True]: [None] stands for the ValueError raised for a
    point outside [xs[0], xs[-1]] (and for arrays of different lengths or
    fewer than two points, rejected at construction). *)
Definition interp1d (xs ys : list Q) (t : Q) : option Q :=
  match xs with
  | [] => None
  | x0 :: _ =>
      if negb (Nat.eqb (length xs) (length ys)) then None
      else if Qltb t x0 || Qltb (last xs x0) t then None
      else interp_seg xs ys t
  end.

(** Evaluating an interpolant at every point of an array. *)
Fixpoint map_opt {A B : Type} (f : A -> option B) (l : list A) : option (list B) :=
  match l with
  | [] => Some []
  | x :: l' =>
      match f x, map_opt f l' with
      | Some y, Some ys => Some (y :: ys)
      | _, _ => None
      end
  end.

(** ** ErgodicOpt: barrier, density and target coefficients *)

Module Density.

(** [ErgodicOpt.barrier]: the pointwise penalty is [(x - wlimit)^2] above
    the workspace and [x^2] below it (the [+=] of the second [np.where]
    adds to the zero left by the first); the array is integrated with
    [trapz] over [self.time]. *)
Definition barr_point (wlimit x : Q) : Q :=
  (if Qltb wlimit x then (x - wlimit) ^ 2 else 0) + (if Qltb x 0 then x ^ 2 else 0).

Definition barrier (wlimit : Q) (time xk : list Q) : Q :=
  trapz (map (barr_point wlimit) xk) time.

(** [ErgodicOpt.normalize_pdf]: [self.pdf /= np.sum(self.pdf) / n].
    A zero divisor makes numpy produce NaN or inf entries; [None] stands
    for that result. *)
Definition normalize_pdf (pdf : list Q) : option (list Q) :=
  let d := npsum pdf / inject_Z (Z.of_nat (length pdf)) in
  if Qeq_bool d 0 then None else Some (map (fun p => p / d) pdf).

(** [ErgodicOpt.calculate_uk], one coefficient:
    [np.sum(pdf / hk[k] * (wlimit / res * np.cos(klist[k] * xlist)))].
    [cosf] is numpy's cosine, kept abstract over [Q]. *)
Fixpoint uk_sum (cosf : Q -> Q) (hk_k kl_k wlimit res : Q) (pdf xlist : list Q) : Q :=
  match pdf, xlist with
  | p :: pdf', x :: xlist' =>
      p / hk_k * (wlimit / res * cosf (kl_k * x)) + uk_sum cosf hk_k kl_k wlimit res pdf' xlist'
  | _, _ => 0
  end.

Fixpoint calculate_uk (cosf : Q -> Q) (hk klist : list Q) (wlimit res : Q)
    (xlist pdf : list Q) : list Q :=
  match hk, klist with
  | h :: hk', kl :: klist' =>
      uk_sum cosf h kl wlimit res pdf xlist :: calculate_uk cosf hk' klist' wlimit res xlist pdf
  | _, _ => []
  end.

(** [ErgodicOpt.set_pdf]: resample on [self.xlist] with
    [interp1d(self.eidTime, pdf)], normalise, compute [uk].  The result
    is the pair [(self.pdf, self.uk)]. *)
Definition set_pdf (cosf : Q -> Q) (hk klist : list Q) (wlimit res : Q)
    (eidTime xlist pdf : list Q) : option (list Q * list Q) :=
  match map_opt (interp1d eidTime pdf) xlist with
  | None => None
  | Some resampled =>
      match normalize_pdf resampled with
      | None => None
      | Some npdf => Some (npdf, calculate_uk cosf hk klist wlimit res xlist npdf)
      end
  end.

(** The spec's form of one target coefficient:
    [sum(pdf * cos(klist[k] * x)) * wlimit / res / hk[k]]. *)
Fixpoint weighted_sum (cosf : Q -> Q) (kl : Q) (pdf xlist : list Q) : Q :=
  match pdf, xlist with
  | p :: pdf', x :: xlist' => p * cosf (kl * x) + weighted_sum cosf kl pdf' xlist'
  | _, _ => 0
  end.

End Density.

(** ** ProjectionBasedOpt: control cost *)

Module Cost.

(** The fields of the optimiser the cost reads, in the scalar case. *)
Record Opt := mkOpt {
  time : list Q;
  R : Q;          (* self.R = R * np.eye(1) *)
  Quinit : Q;     (* weight for the initial control *)
  uinit : Q
}.

(** [cost_pointwise]: [0.5 * matmult(u, R, u)]; the state is not used. *)
Definition cost_pointwise (o : Opt) (x u : Q) : Q := 1 / 2 * (u * R o * u).

(** [cost]: evaluate [cost_pointwise] at every index of [self.time] and
    integrate with [trapz]. *)
Definition cost (o : Opt) (X U : list Q) : Q :=
  trapz (map (fun i => cost_pointwise o (nth i X 0) (nth i U 0)) (seq 0 (length (time o))))
        (time o).

(** [eval_cost]: [cost] at the current trajectory. *)
Definition eval_cost (o : Opt) (X_current U_current : list Q) : Q := cost o X_current U_current.

(** [dldu]: [R u] at every index, plus [self.uinit * self.Quinit] at index 0. *)
Definition dldu (o : Opt) (X U : list Q) : list Q :=
  map (fun i => R o * nth i U 0 + (if Nat.eqb i 0 then uinit o * Quinit o else 0))
      (seq 0 (length (time o))).

End Cost.
(** ** ProjectionBasedOpt: the ODE right-hand sides and the integrator *)

Module Ode.

(** A grid interpolant ([interp1d] over [self.time]); [None] is its
    ValueError. *)
Definition interp := Q -> option Q.

Section WithTime.

(** [self.time], the grid [np.linspace(0, timeHorizon, tRes)]. *)
Variable time : list Q.

Definition t_first : Q := hd 0 time.
Definition t_last : Q := last time 0.

(** The guard [t > self.time[-1] or t < self.time[0]] of every
    right-hand side. *)
Definition out_of_range (t : Q) : bool := Qltb t_last t || Qltb t t_first.

(** [peqns] (scalar case [nx = 1]):
    [pp A + A pp - pp B B pp + Qn], or [0] outside the grid. *)
Definition peqns (t pp : Q) (Al Bl : interp) (Rn Qn : Q) : option Q :=
  if out_of_range t then Some 0
  else match Al t, Bl t with
       | Some a, Some b => Some (pp * a + a * pp - pp * b * b * pp + Qn)
       | _, _ => None
       end.

(** [reqns]: after the guard, the time is substituted by
    [self.time[-1] - t] before any interpolant is queried. *)
Definition reqns (t rr : Q) (Al Bl a b Psol : interp) (Rn Qn : Q) : option Q :=
  if out_of_range t then Some 0
  else let t' := t_last - t in
       match Al t', Bl t', Psol t', a t', b t' with
       | Some av, Some bv, Some pv, Some aa, Some bb =>
           Some ((av - bv * bv * pv) * rr + aa - pv * bv * bb)
       | _, _, _, _, _ => None
       end.

(** [veqns]: [-B P z - B r - b]. *)
Definition veqns (zz Bl Psol Rsol b : Q) : Q := - Bl * Psol * zz - Bl * Rsol - b.

(** [zeqns]: [A z + B v] with [v] from [veqns], or [0] outside the grid. *)
Definition zeqns (t zz : Q) (Al Bl a b Psol Rsol : interp) (Rn Qn : Q) : option Q :=
  if out_of_range t then Some 0
  else match Al t, Bl t, a t, b t, Psol t, Rsol t with
       | Some av, Some bv, Some _, Some bb, Some pv, Some rv =>
           Some (av * zz + bv * veqns zz bv pv rv bb)
       | _, _, _, _, _, _ => None
       end.

(** [fofx]: the single-integrator dynamics [dx = U(t)], or [0] outside
    the grid. *)
Definition fofx (t X : Q) (U : interp) : option Q :=
  if out_of_range t then Some 0 else U t.

(** [proj]: the feedback law [mu(t) + K(t) (alpha(t) - X)], or [0]
    outside the grid. *)
Definition proj (t X : Q) (K mu alpha : interp) : option Q :=
  if out_of_range t then Some 0
  else match mu t, K t, alpha t with
       | Some m, Some k, Some al => Some (m + k * (al - X))
       | _, _, _ => None
       end.

(** [self.odeIntegrator]: [solve_ivp] with method RK23, [rtol = 1e-4],
    [atol = 1e-7], [first_step = max_step = time[1] - time[0]] (RK23
    ignores [min_step]), sampled at [t_eval = time].

    [rk_stages] is scipy's [rk_step] for RK23 in one dimension: the
    stages [K[0..2]], the new state and [f_new = fun(t + h, y_new)]
    ([K[3]]); [Qred] only normalises the representation of the rational. *)
Definition rk_stages (f : Q -> Q -> option Q) (t h y : Q) : option (Q * Q * Q * Q * Q) :=
  match f t y with
  | None => None
  | Some k1 =>
      match f (t + h / 2) (y + h / 2 * k1) with
      | None => None
      | Some k2 =>
          match f (t + 3 / 4 * h) (y + 3 / 4 * h * k2) with
          | None => None
          | Some k3 =>
              let y' := Qred (y + h * (2 / 9 * k1 + 1 / 3 * k2 + 4 / 9 * k3)) in
              match f (t + h) y' with
              | None => None
              | Some k4 => Some (k1, k2, k3, k4, y')
              end
          end
      end
  end.

Definition rtol : Q := 1 # 10000.
Definition atol : Q := 1 # 10000000.

(** [RK23._estimate_error_norm] in one dimension: the embedded error
    [h * (K . E)] with [E = (5/72, -1/12, -1/9, 1/8)], divided by
    [atol + max(|y|, |y_new|) * rtol]; the RMS norm of a single component
    is its absolute value.  scipy accepts the step when this is below 1,
    and then multiplies the step size by [min(10, 0.9 * norm^(-1/3))]
    ([10] when the norm is 0), capped at [max_step]. *)
Definition rk23_error_norm (f : Q -> Q -> option Q) (t h y : Q) : option Q :=
  match rk_stages f t h y with
  | None => None
  | Some (k1, k2, k3, k4, y') =>
      let err := h * (5 / 72 * k1 - 1 / 12 * k2 - 1 / 9 * k3 + 1 / 8 * k4) in
      Some (Qabs err / (atol + Qmax (Qabs y) (Qabs y') * rtol))
  end.

(** The model takes one such step from each grid point to the next and
    reads the sample at its end.  This is scipy's run when every step is
    accepted with an error norm of at most [0.729] on a uniform grid (the
    factor is then at least 1, so the next step is again [max_step], the
    grid spacing), in particular when every error estimate is 0, and on a
    grid of one interval; otherwise scipy rejects and shrinks steps, which
    the model does not follow. *)
Definition rk23_step (f : Q -> Q -> option Q) (t h y : Q) : option Q :=
  match rk_stages f t h y with
  | None => None
  | Some (_, _, _, _, y') => Some y'
  end.

Fixpoint integrate_from (f : Q -> Q -> option Q) (t y : Q) (ts : list Q) : option (list Q) :=
  match ts with
  | [] => Some []
  | t' :: ts' =>
      match rk23_step f t (t' - t) y with
      | None => None
      | Some y' =>
          match integrate_from f t' y' ts' with
          | None => None
          | Some ys => Some (y' :: ys)
          end
      end
  end.

Definition odeIntegrator (f : Q -> Q -> option Q) (y0 : Q) : option (list Q) :=
  match time with
  | [] => None
  | t0 :: ts =>
      match integrate_from f t0 y0 ts with
      | None => None
      | Some ys => Some (y0 :: ys)
      end
  end.

(** *** The linearisation built by [update_traj] *)

(** [dfdx] fills [A_current] with 0 and [dfdu] fills [B_current] with 1
    at every grid point (single integrator). *)
Definition A_current : list Q := map (fun _ => 0) time.
Definition B_current : list Q := map (fun _ => 1) time.
Definition A_interp : interp := interp1d time A_current.
Definition B_interp : interp := interp1d time B_current.

(** [self.P1 = self.Qn = self.Rn = self.Qk = self.Rk = 1.0] *)
Definition Qn : Q := 1.
Definition Rn : Q := 1.

(** [Psol]: integrate [peqns] from [P1 = 1] and return the samples as
    the integrator produced them. *)
Definition Psol (Al Bl : interp) : option (list Q) :=
  odeIntegrator (fun t y => peqns t y Al Bl Rn Qn) 1.

(** [Rsol]: integrate [reqns] from 0 and reverse the samples ([np.flip]). *)
Definition Rsol (Al Bl a b P_interp : interp) : option (list Q) :=
  match odeIntegrator (fun t y => reqns t y Al Bl a b P_interp Rn Qn) 0 with
  | None => None
  | Some soln => Some (rev soln)
  end.

(** [Ksol]: [K[i] = B_current[i] * P[i]] with [P] from [peqns] and the
    weights [Rk = Qk = 1]. *)
Definition Ksol (Al Bl : interp) (Bcur : list Q) : option (list Q) :=
  match odeIntegrator (fun t y => peqns t y Al Bl Rn Qn) 1 with
  | None => None
  | Some psoln => Some (map (fun i => nth i Bcur 0 * nth i psoln 0) (seq 0 (length time)))
  end.

(** [simulate]: integrate [fofx] with the interpolant of [U]. *)
Definition simulate (X0 : Q) (U : list Q) : option (list Q) :=
  odeIntegrator (fun t y => fofx t y (interp1d time U)) X0.

(** [projcontrol]: [mu + K (alpha - X)] at one grid point. *)
Definition projcontrol (X K mu alpha : Q) : Q := mu + K * (alpha - X).

(** [project]: solve the gain with the current linearisation, integrate
    the feedback law from [X0], and recompute the control at the grid
    points.  Returns [(xsoln, usoln)]. *)
Definition project (X0 : Q) (alpha mu : list Q) : option (list Q * list Q) :=
  match Ksol A_interp B_interp B_current with
  | None => None
  | Some Ks =>
      match odeIntegrator
              (fun t y => proj t y (interp1d time Ks) (interp1d time mu) (interp1d time alpha)) X0
      with
      | None => None
      | Some xsoln =>
          Some (xsoln,
                map (fun i => projcontrol (nth i xsoln 0) (nth i Ks 0) (nth i mu 0) (nth i alpha 0))
                    (seq 0 (length time)))
      end
  end.

(** The time-reversal convention of the spec, for comparison with
    [Psol]: integrate the gain equation in [tau = T - t] (the interpolants
    queried at [T - tau]) from the terminal value [P1 = 1], then reverse
    the samples so that they are indexed in forward time. *)
Definition Psol_time_reversed (Al Bl : interp) : option (list Q) :=
  match odeIntegrator
          (fun tau y => if out_of_range tau then Some 0
                        else peqns (t_last - tau) y Al Bl Rn Qn) 1 with
  | None => None
  | Some soln => Some (rev soln)
  end.

End WithTime.

End Ode.

(** ** SimulationMainQueue: [normalize] *)

Module Normalize.

(** [normalize(s, t, mid, gain)] on two distinct arrays.  [None] stands
    for the failures on the way: [gain ** -1] with [gain = 0.0]
    (ZeroDivisionError), [np.max] of an empty array (ValueError), and a
    zero scale, which fills the arrays with NaN or inf. *)
Definition normalize (s t : list Q) (mid gain : Q) : option (list Q * list Q) :=
  let sMean := npmean s in
  let s1 := map (fun x => x - npmean s) s in      (* s -= np.mean(s) *)
  let t1 := map (fun x => x - sMean) t in         (* t -= sMean *)
  match npmax s1 with
  | None => None
  | Some m =>
      if Qeq_bool gain 0 then None
      else
        let sScale := m * / gain in                 (* np.max(s) * gain ** -1 *)
        if Qeq_bool sScale 0 then None
        else Some (map (fun x => x / sScale + mid) s1,   (* s /= sScale; s += mid *)
                   map (fun x => x / sScale + mid) t1)   (* t /= sScale; t += mid *)
  end.

(** The affine map of the claim: [x -> (x - mean(s)) * gain / max(s - mean(s)) + mid]. *)
Definition affine (sMean M mid gain x : Q) : Q := (x - sMean) * gain / M + mid.

End Normalize.

(** ** SimulationMainQueue: [QueueWorker] *)

Module Worker.

(** Exceptions, as far as the worker's handlers tell them apart. *)
Inductive exn : Type :=
  | Empty                 (* queue.Empty *)
  | Other (code : nat).   (* any other Exception *)

Definition is_Empty (e : exn) : bool :=
  match e with Empty => true | Other _ => false end.

(** What one [mp_queue.get(block=True, timeout=5.0)] gives the worker:
    a job, or an exception (a timeout on an empty queue raises [Empty]). *)
Inductive get_outcome (job : Type) : Type :=
  | Got (j : job)
  | GetRaised (e : exn).
Arguments Got {job} j.
Arguments GetRaised {job} e.

(** How the worker's [while True] loop ends; the list holds the jobs it
    started, in order.  [Waiting] means the sequence of [get] outcomes
    given to the model ran out while the worker still loops. *)
Inductive outcome (job : Type) : Type :=
  | Returned (started : list job)
  | Raised (e : exn) (started : list job)
  | Waiting (started : list job).
Arguments Returned {job} started.
Arguments Raised {job} e started.
Arguments Waiting {job} started.

Section Loop.

Variable job : Type.

(** [run j] is the exception raised while handling job [j] (the
    [print_color] calls, the moth-data loading and [EIH_Sim] /
    [EIDSim]), or [None] when the job completes. *)
Variable run : job -> option exn.

Definition push (j : job) (o : outcome job) : outcome job :=
  match o with
  | Returned js => Returned (j :: js)
  | Raised e js => Raised e (j :: js)
  | Waiting js => Waiting (j :: js)
  end.

(** The [try] block covers both the [get] and the job: [except Empty]
    returns, [except Exception: raise] re-raises. *)
Definition handle (e : exn) (started : list job) : outcome job :=
  if is_Empty e then Returned started else Raised e started.

Fixpoint QueueWorker (gets : list (get_outcome job)) : outcome job :=
  match gets with
  | [] => Waiting []
  | GetRaised e :: _ => handle e []
  | Got j :: gets' =>
      match run j with
      | Some e => handle e [j]
      | None => push j (QueueWorker gets')
      end
  end.

End Loop.

Arguments QueueWorker {job} run gets.

End Worker.

(** ** Shared notions for the statements *)

Module Grid.

(** [self.wlimit = 1.0] *)
Definition wlimit : Q := 1.

(** A strictly increasing grid, as [np.linspace(0, T, n)] with [T > 0]. *)
Fixpoint strictly_increasing (l : list Q) : Prop :=
  match l with
  | x :: ((y :: _) as r) => x < y /\ strictly_increasing r
  | _ => True
  end.

End Grid.

Module Notions.

(** Two coefficient vectors whose differences [ck - uk] agree except at
    index [k]. *)
Definition diffs_agree_except (k : nat) (ck uk ck' uk' : list Q) : Prop :=
  forall j, j <> k -> nth j ck' 0 - nth j uk' 0 == nth j ck 0 - nth j uk 0.

Section WorkerRun.
Import Worker.

Variable job : Type.
Variable run : job -> option exn.

(** A job that runs to completion. *)
Definition ok (j : job) : Prop := run j = None.

(** The worker stops at the first exception, from a [get] or from a job. *)
Definition stops_at (e : exn) (started : list job) (gets : list (get_outcome job)) : Prop :=
  (exists rest, Forall ok started /\ gets = map Got started ++ GetRaised e :: rest) \/
  (exists pre j rest, started = pre ++ [j] /\ Forall ok pre /\ run j = Some e /\
                      gets = map Got pre ++ Got j :: rest).

End WorkerRun.

End Notions.

(** ** numpy: [np.linspace] *)

Module Linspace.

(** [np.linspace(start, stop, num)] with [endpoint=True]:
    [div = num - 1]; the samples are [arange(num) * step + start] with
    [step = (stop - start) / div] when [div > 0], and
    [arange(num) * (stop - start) + start] otherwise; when [num > 1] the
    last sample is then set to [stop]. *)
Definition linspace (start stop : Q) (num : nat) : list Q :=
  let div := (num - 1)%nat in
  let delta := stop - start in
  let y := if Nat.ltb 0 div
           then map (fun i => inject_Z (Z.of_nat i) * (delta / inject_Z (Z.of_nat div)) + start)
                    (seq 0 num)
           else map (fun i => inject_Z (Z.of_nat i) * delta + start) (seq 0 num) in
  if Nat.ltb 1 num then removelast y ++ [stop] else y.

End Linspace.

(** ** ErgodicOpt: gradients and the total cost *)

Module ErgodicGrad.

(** [ErgodicOpt.Dbarrier], one entry: the first [np.where] writes
    [2 (x - wlimit)] above the workspace, the second writes [2 x] below
    it (an assignment, so it wins where both hold); zero elsewhere. *)
Definition dbarr_point (wlimit x : Q) : Q :=
  if Qltb x 0 then 2 * x else if Qltb wlimit x then 2 * (x - wlimit) else 0.

Definition Dbarrier (wlimit : Q) (xk : list Q) : list Q := map (dbarr_point wlimit) xk.

(** [ErgodicOpt.ckeval]: for each of the [Nfourier] coefficients,
    [trapz(1 / (hk[k] * T) * cos(klist[k] * X), time)] with
    [T = time[-1]]; [cosf] is numpy's cosine, kept abstract over [Q]. *)
Definition ckeval (cosf : Q -> Q) (Nfourier : nat) (hk klist time X : list Q) : list Q :=
  let T := last time 0 in
  map (fun k => trapz (map (fun w => 1 / (nth k hk 0 * T) * cosf (nth k klist 0 * w)) X) time)
      (seq 0 Nfourier).

(** [ErgodicOpt.akeval]: [outerchain = 2 Lambdak (ck - uk) / (hk T)];
    the [k]-th term at a sample [x] is
    [outerchain[k] * (-klist[k] * sin(klist[k] * x))], and the terms are
    summed over [k] ([np.sum(..., axis=0)]).  With [Nfourier = 0] the
    array of terms is empty, its sum is the scalar [0.0], and the
    reshape gives the single entry [0].  [sinf] is numpy's sine. *)
Definition akeval (sinf : Q -> Q) (Nfourier : nat) (Lambdak ck uk hk klist time X : list Q) : list Q :=
  let T := last time 0 in
  let outerchain k := 2 * nth k Lambdak 0 * (nth k ck 0 - nth k uk 0) / (nth k hk 0 * T) in
  match Nfourier with
  | O => [0]
  | S _ =>
      map (fun x => npsum (map (fun k => outerchain k * (- nth k klist 0 * sinf (nth k klist 0 * x)))
                               (seq 0 Nfourier)))
          X
  end.

(** [ErgodicOpt.dldx]: [ergcost * ak + barrcost * Dbarrier(X)], entry by
    entry.  (With [Nfourier = 0], [ak] is the single [0], which numpy
    broadcasts; [nth i ak 0] is that same [0] at every index.) *)
Definition dldx (ergcost barrcost wlimit : Q) (ak X : list Q) : list Q :=
  map (fun i => ergcost * nth i ak 0 + barrcost * nth i (Dbarrier wlimit X) 0) (seq 0 (length X)).

(** [ProjectionBasedOpt.dcost]: the directional derivative
    [trapz(a[i] dX[i] + b[i] dU[i], time)] along [(dX, dU)]. *)
Definition dcost (time a b dX dU : list Q) : Q :=
  trapz (map (fun i => nth i a 0 * nth i dX 0 + nth i b 0 * nth i dU 0) (seq 0 (length time))) time.

(** [ErgodicOpt.evalcost]:
    [J = barrcost * barrier(X) + ergcost * calculate_ergodicity() + cost(X, U)]. *)
Definition evalcost (o : Cost.Opt) (barrcost ergcost wlimit : Q) (Nfourier : nat)
    (ck uk X U : list Q) : Q :=
  let cost := Cost.cost o X U in
  let barr_cost := barrcost * Density.barrier wlimit (Cost.time o) X in
  let erg_cost := ergcost * Ergodic.calculate_ergodicity Nfourier ck uk in
  barr_cost + erg_cost + cost.

End ErgodicGrad.

(** ** SimParameters: [EIDParameters.UpdateDeltaT] *)

Module Params.

(** [UpdateDeltaT(dt)]: store [dt] and set
    [maxIter = int(ceil(maxT / (dt * tRes)))].  Returns [(dt, maxIter)]. *)
Definition UpdateDeltaT (maxT : Q) (tRes : Z) (dt : Q) : Q * Z :=
  (dt, Qceiling (maxT / (dt * inject_Z tRes))).

End Params.

(** ** SimulationMainQueue: the jobs it queues *)

Module Main.

(** [itertools.product] of the lists: the first list varies slowest. *)
Fixpoint product {A : Type} (ls : list (list A)) : list (list A) :=
  match ls with
  | [] => [[]]
  | l :: ls' => flat_map (fun x => map (cons x) (product ls')) l
  end.

(** An item put on the work queue: a simulation job, whose parameters are
    the tuple [simParam[it]] written into [eidParam] and [ergParam], or
    a wiggle-attenuation job (the split words of a line of
    [SimJobList.txt]). *)
Inductive job (A W : Type) : Type :=
  | SimJob (params : list A)
  | AttJob (words : W).

Arguments SimJob {A W} params.
Arguments AttJob {A W} words.

(** The outcome of each step of [SimulationMainQueue] that depends on
    the file system, the data or the operating system: [None] or
    [false] where the step raises. *)
Record Env (D A : Type) := {
  (** [loadParams(dat)] and its lists [SNR], [procNoiseSigma],
      [pLSigmaAmp], [Sigma], [objAmp], [dt], [wControl], [randSeed] *)
  loadParams : D -> option (list (list A));
  (** [open("./SimParameters/SimJobList.txt", "r")] *)
  joblist_opens : bool;
  (** [get_context("fork")] *)
  fork_ok : bool;
  (** [Pool(processes=nThread)] with [nThread >= 1], and starting the
      [nThread] worker processes *)
  processes_ok : bool;
  (** [exists(eidParam.saveDir)], or else [makedirs(eidParam.saveDir)],
      for the parameters loaded from a data file *)
  saveDir_ok : D -> bool;
  (** writing one parameter tuple of a data file into [eidParam] and
      [ergParam] ([UpdateDeltaT], [maxIter], [filename], the other
      targets) *)
  job_ok : D -> list A -> bool
}.

Arguments loadParams {D A} e.
Arguments joblist_opens {D A} e.
Arguments fork_ok {D A} e.
Arguments processes_ok {D A} e.
Arguments saveDir_ok {D A} e.
Arguments job_ok {D A} e.

Section Queue.

Context {D A W : Type} (env : Env D A).

(** The jobs of one trial: for each parameter tuple, set the parameters,
    then put the job on the queue. *)
Fixpoint job_puts (dat : D) (simParam : list (list A)) : option (list (job A W)) :=
  match simParam with
  | [] => Some []
  | p :: rest =>
      if negb (job_ok env dat p) then None
      else match job_puts dat rest with
           | None => None
           | Some js => Some (SimJob p :: js)
           end
  end.

(** The loop over the trials: make sure the save folder exists, then put
    the trial's jobs. *)
Fixpoint trial_puts (trials : list (D * list (list A))) : option (list (job A W)) :=
  match trials with
  | [] => Some []
  | (dat, simParam) :: rest =>
      if negb (saveDir_ok env dat) then None
      else match job_puts dat simParam, trial_puts rest with
           | Some js, Some js' => Some (js ++ js')
           | _, _ => None
           end
  end.

(** [SimulationMainQueue(dataFiles, nThread)]: each data file gives the
    eight parameter lists of its [product]; the lines read from
    [SimJobList.txt] are sorted and then cleared, so no attenuation job
    remains.  The pool size is [nThread], lowered to [nTotalJobs] when
    there are fewer jobs; [Pool(processes=0)] raises ValueError.  The
    result is the pool size, the queue bound and the items put on the
    queue, in order, or [None] when the function raises.  A job carries
    the parameter tuple written into the shared [eidParam] and
    [ergParam] just before its [put]; the queue serialises it later, in
    its feeder thread, during the 0.1 s pause before the next tuple is
    written. *)
Definition SimulationMainQueue (dataFiles : list D) (nThread : nat)
    : option (nat * nat * list (job A W)) :=
  match map_opt (loadParams env) dataFiles with
  | None => None
  | Some paramList =>
      let simParamList := map product paramList in
      let nSimJobsList := map (@length (list A)) simParamList in
      if negb (joblist_opens env) then None
      else
        let attenuation_sim_trials : list W := [] in
        let nAttenuationSimTrials := length attenuation_sim_trials in
        let nTotalJobs := (list_sum nSimJobsList + nAttenuationSimTrials)%nat in
        let nThread := if Nat.ltb nTotalJobs nThread then nTotalJobs else nThread in
        if negb (fork_ok env) then None
        else if Nat.ltb nThread 1 then None
        else if negb (processes_ok env) then None
        else
          let max_queue_size := Nat.min (2 * nThread)%nat nTotalJobs in
          match trial_puts (combine dataFiles simParamList) with
          | None => None
          | Some sim_puts =>
              let att_puts := map (fun w => AttJob w) attenuation_sim_trials in
              Some (nThread, max_queue_size, sim_puts ++ att_puts)
          end
  end.

End Queue.

End Main.

(** ** ProjectionBasedOpt: [descentdirection] *)

Module Descent.
Import Ode.

Section WithTime.

Variable time : list Q.

(** [descentdirection] after [update_traj]: [Psol] with the linearisation
    [A = 0], [B = 1]; [Rsol] with the interpolants of [a_current] and
    [b_current] and of [Ps]; [zinit = -P(0)^-1 r(0)]; [z] integrated from
    [zeqns]; and [v] from [veqns] at every grid point.  [None] stands for
    the ValueError of an interpolant queried outside the grid, and for the
    inf or NaN that [P(0) ** -1] gives at [P(0) = 0].  Returns
    [(zsoln, vsoln)]. *)
Definition descentdirection (a_current b_current : list Q) : option (list Q * list Q) :=
  let Al := A_interp time in
  let Bl := B_interp time in
  let a_interp := interp1d time a_current in
  let b_interp := interp1d time b_current in
  match Psol time Al Bl with
  | None => None
  | Some Ps =>
      let P_interp := interp1d time Ps in
      match Rsol time Al Bl a_interp b_interp P_interp with
      | None => None
      | Some Rs =>
          let r_interp := interp1d time Rs in
          match P_interp 0, r_interp 0 with
          | Some p0, Some r0 =>
              if Qeq_bool p0 0 then None
              else
                let zinit := - (/ p0 * r0) in
                match odeIntegrator time
                        (fun t y => zeqns time t y Al Bl a_interp b_interp P_interp r_interp Rn Qn)
                        zinit with
                | None => None
                | Some zsoln =>
                    Some (zsoln,
                          map (fun i => veqns (nth i zsoln 0) (nth i (B_current time) 0)
                                              (nth i Ps 0) (nth i Rs 0) (nth i b_current 0))
                              (seq 0 (length time)))
                end
          | _, _ => None
          end
      end
  end.

End WithTime.

End Descent.

(** ** ErgodicOpt: [update_traj] *)

Module Update.
Import ErgodicGrad.

(** [ErgodicOpt.update_traj(X, U)]: store [X] and [U], compute [ck]
    ([ckeval]) and [ak] ([akeval]), then the linearisation:
    [A_current] and [B_current] are the constants of [dfdx] and [dfdu]
    ([Ode.A_current], [Ode.B_current]), [a_current = dldx()] and
    [b_current = dldu()].  Returns [(ck, a_current, b_current)]; the
    interpolants are [interp1d] over [time] of these arrays. *)
Definition update_traj (o : Cost.Opt) (cosf sinf : Q -> Q) (Nfourier : nat)
    (Lambdak uk hk klist : list Q) (ergcost barrcost : Q) (X U : list Q)
    : list Q * list Q * list Q :=
  let ck := ckeval cosf Nfourier hk klist (Cost.time o) X in
  let ak := akeval sinf Nfourier Lambdak ck uk hk klist (Cost.time o) X in
  (ck, dldx ergcost barrcost Grid.wlimit ak X, Cost.dldu o X U).

End Update.

(** ** Facts about the ergodic metric *)

Module ErgodicFacts.
Import Ergodic Notions.

(** *** Facts about the weights *)

Lemma Lambdak_at_inj (k : nat) :
  Lambdak_at k == / (1 + inject_Z (Z.of_nat k) * inject_Z (Z.of_nat k)).
Proof.
  unfold Lambdak_at. change s with 1%Z. unfold Qdiv. rewrite Qmult_1_l. reflexivity.
Qed.

Lemma Lambdak_at_pos (k : nat) : 0 < Lambdak_at k.
Proof.
  rewrite Lambdak_at_inj. apply Qinv_lt_0_compat.
  assert (0 <= inject_Z (Z.of_nat k)).
  { change 0 with (inject_Z 0). rewrite <- Zle_Qle. lia. }
  nra.
Qed.

Lemma Lambdak_at_lt (i j : nat) : (i < j)%nat -> Lambdak_at j < Lambdak_at i.
Proof.
  intro Hij. rewrite !Lambdak_at_inj.
  assert (0 <= inject_Z (Z.of_nat i)).
  { change 0 with (inject_Z 0). rewrite <- Zle_Qle. lia. }
  assert (inject_Z (Z.of_nat i) < inject_Z (Z.of_nat j)).
  { rewrite <- Zlt_Qlt. lia. }
  set (I := inject_Z (Z.of_nat i)) in *. set (J := inject_Z (Z.of_nat j)) in *.
  assert (HIJ : 1 + I * I < 1 + J * J).
  { assert (0 < (J - I) * (J + I)) by (apply Qmult_lt_0_compat; lra). nra. }
  apply (Qinv_lt_contravar (1 + I * I) (1 + J * J)); [nra | nra | exact HIJ].
Qed.

Lemma Lambdak_nth (N k : nat) : (k < N)%nat -> nth k (Lambdak N) 0 = Lambdak_at k.
Proof.
  intro Hk. unfold Lambdak.
  rewrite nth_indep with (d' := Lambdak_at 0) by (rewrite length_map, length_seq; lia).
  rewrite map_nth, seq_nth by lia. reflexivity.
Qed.

Lemma Lambdak_length (N : nat) : length (Lambdak N) = N.
Proof. unfold Lambdak. rewrite length_map, length_seq. reflexivity. Qed.

Lemma Lambdak_all_pos (N : nat) : Forall (fun l => 0 < l) (Lambdak N).
Proof.
  unfold Lambdak. apply Forall_map, Forall_forall. intros k _. apply Lambdak_at_pos.
Qed.

(** *** Facts about the weighted sum of squares *)

Lemma sq_unfold (d : Q) : d ^ 2 = d * d.
Proof. reflexivity. Qed.

Lemma sq_abs (d : Q) : d * d == Qabs d * Qabs d.
Proof. apply Qabs_case; intros; ring. Qed.

Lemma sq_nonneg (d : Q) : 0 <= d * d.
Proof. rewrite sq_abs. apply Qmult_le_0_compat; apply Qabs_nonneg. Qed.

Lemma term_nonneg (l d : Q) : 0 < l -> 0 <= l * d ^ 2.
Proof. intro Hl. rewrite sq_unfold. assert (0 <= d * d) by nra. nra. Qed.

Lemma erg_sum_nonneg (lam ck uk : list Q) :
  Forall (fun l => 0 < l) lam -> 0 <= erg_sum lam ck uk.
Proof.
  revert ck uk. induction lam as [|l lam IH]; intros ck uk Hl; cbn [erg_sum]; [lra|].
  inversion Hl; subst.
  destruct ck as [|c ck]; [lra|]; destruct uk as [|u uk]; [lra|].
  pose proof (term_nonneg l (c - u) H1). specialize (IH ck uk H2). lra.
Qed.

Lemma erg_sum_zero_iff (lam ck uk : list Q) :
  Forall (fun l => 0 < l) lam -> length ck = length lam -> length uk = length lam ->
  (erg_sum lam ck uk == 0 <-> arr_eq ck uk).
Proof.
  revert ck uk. induction lam as [|l lam IH]; intros ck uk Hl Hc Hu.
  - destruct ck; [|discriminate]; destruct uk; [|discriminate].
    split; intros; [constructor | reflexivity].
  - destruct ck as [|c ck]; [discriminate|]; destruct uk as [|u uk]; [discriminate|].
    inversion Hl; subst. simpl in Hc, Hu. injection Hc as Hc; injection Hu as Hu.
    specialize (IH ck uk H2 Hc Hu).
    pose proof (erg_sum_nonneg lam ck uk H2).
    pose proof (term_nonneg l (c - u) H1).
    cbn [erg_sum]. split.
    + intro Hz.
      assert (Ht : l * (c - u) ^ 2 == 0) by lra.
      assert (Hr : erg_sum lam ck uk == 0) by lra.
      constructor; [|apply IH; exact Hr].
      rewrite sq_unfold in Ht.
      apply Qmult_integral in Ht as [Ht|Ht]; [lra|].
      apply Qmult_integral in Ht as [Ht|Ht]; lra.
    + intro He. inversion He; subst.
      assert (Hr : erg_sum lam ck uk == 0) by (apply IH; assumption).
      rewrite Hr, sq_unfold. setoid_replace (c - u) with 0 by lra. ring.
Qed.

Lemma erg_sum_ext (lam ck uk ck' uk' : list Q) :
  (forall j, nth j ck' 0 - nth j uk' 0 == nth j ck 0 - nth j uk 0) ->
  length ck = length lam -> length uk = length lam ->
  length ck' = length lam -> length uk' = length lam ->
  erg_sum lam ck' uk' == erg_sum lam ck uk.
Proof.
  revert ck uk ck' uk'. induction lam as [|l lam IH]; intros ck uk ck' uk' Hd H1 H2 H3 H4.
  - reflexivity.
  - destruct ck as [|c ck]; [discriminate|]; destruct uk as [|u uk]; [discriminate|].
    destruct ck' as [|c' ck']; [discriminate|]; destruct uk' as [|u' uk']; [discriminate|].
    simpl in *. injection H1 as H1; injection H2 as H2; injection H3 as H3; injection H4 as H4.
    rewrite (IH ck uk ck' uk') by (try (intro j; exact (Hd (S j))); assumption).
    rewrite (Hd O). reflexivity.
Qed.

Lemma erg_sum_strict_mono (lam ck uk ck' uk' : list Q) (k : nat) :
  Forall (fun l => 0 < l) lam ->
  length ck = length lam -> length uk = length lam ->
  length ck' = length lam -> length uk' = length lam ->
  diffs_agree_except k ck uk ck' uk' ->
  Qabs (nth k ck 0 - nth k uk 0) < Qabs (nth k ck' 0 - nth k uk' 0) ->
  erg_sum lam ck uk < erg_sum lam ck' uk'.
Proof.
  revert ck uk ck' uk' k. induction lam as [|l lam IH];
    intros ck uk ck' uk' k Hl H1 H2 H3 H4 Hd Hk.
  - destruct ck; [|discriminate]; destruct uk; [|discriminate].
    destruct ck'; [|discriminate]; destruct uk'; [|discriminate].
    destruct k; cbn [nth] in Hk; lra.
  - destruct ck as [|c ck]; [discriminate|]; destruct uk as [|u uk]; [discriminate|].
    destruct ck' as [|c' ck']; [discriminate|]; destruct uk' as [|u' uk']; [discriminate|].
    inversion Hl; subst.
    simpl in H1, H2, H3, H4.
    injection H1 as H1; injection H2 as H2; injection H3 as H3; injection H4 as H4.
    destruct k as [|k].
    + cbn [nth] in Hk.
      assert (Hr : erg_sum lam ck' uk' == erg_sum lam ck uk).
      { apply erg_sum_ext; try assumption. intro j. exact (Hd (S j) ltac:(discriminate)). }
      cbn [erg_sum]. rewrite Hr, !sq_unfold.
      assert (Hsq : (c - u) * (c - u) < (c' - u') * (c' - u')).
      { rewrite (sq_abs (c - u)), (sq_abs (c' - u')).
        pose proof (Qabs_nonneg (c - u)).
        assert (0 < (Qabs (c' - u') - Qabs (c - u)) * (Qabs (c' - u') + Qabs (c - u)))
          by (apply Qmult_lt_0_compat; lra).
        set (A := Qabs (c - u)) in *. set (B := Qabs (c' - u')) in *.
        assert (E : (B - A) * (B + A) == B * B - A * A) by ring.
        rewrite E in *. lra. }
      assert (0 < l * ((c' - u') * (c' - u') - (c - u) * (c - u)))
        by (apply Qmult_lt_0_compat; lra).
      assert (E : l * ((c' - u') * (c' - u') - (c - u) * (c - u))
                  == l * ((c' - u') * (c' - u')) - l * ((c - u) * (c - u))) by ring.
      rewrite E in *. lra.
    + cbn [nth] in Hk.
      assert (Hh : c' - u' == c - u) by exact (Hd O ltac:(discriminate)).
      assert (IH' : erg_sum lam ck uk < erg_sum lam ck' uk').
      { apply (IH ck uk ck' uk' k); try assumption.
        intros j Hj. exact (Hd (S j) ltac:(congruence)). }
      cbn [erg_sum]. rewrite Hh. lra.
Qed.

End ErgodicFacts.

(** * Claims *)

Import Ergodic ErgodicFacts Notions.

(** C7: the spectral weights are [Lambdak[k] = (1 + k^2)^(-(dimw+1)/2)],
    which is [1 / (1 + k^2)] for [dimw = 1]; every weight is strictly
    positive and the weights strictly decrease with [k]. *)
Theorem Lambdak_formula_pos_decreasing (N : nat) :
  (forall k, (k < N)%nat ->
     nth k (Lambdak N) 0 == (1 + inject_Z (Z.of_nat k) ^ 2) ^ (- ((dimw + 1) / 2)) /\
     nth k (Lambdak N) 0 == 1 / (1 + inject_Z (Z.of_nat k) ^ 2) /\
     0 < nth k (Lambdak N) 0) /\
  (forall i j, (i < j < N)%nat -> nth j (Lambdak N) 0 < nth i (Lambdak N) 0).
Proof.
  split.
  - intros k Hk. rewrite (Lambdak_nth N k Hk). split; [|split].
    + rewrite Lambdak_at_inj. reflexivity.
    + rewrite Lambdak_at_inj. unfold Qdiv. rewrite Qmult_1_l. reflexivity.
    + apply Lambdak_at_pos.
  - intros i j [Hij HjN].
    rewrite (Lambdak_nth N i ltac:(lia)), (Lambdak_nth N j HjN).
    apply Lambdak_at_lt. exact Hij.
Qed.

(** C1: for coefficient arrays [ck], [uk] of length [nFourier],
    [calculate_ergodicity] is 0 exactly when [ck] and [uk] agree
    elementwise, strictly positive otherwise, and strictly increasing in
    each [|ck[k] - uk[k]|] when the other differences are held fixed. *)
Theorem calculate_ergodicity_spec (N : nat) (ck uk : list Q)
    (Hck : length ck = N) (Huk : length uk = N) :
  (calculate_ergodicity N ck uk == 0 <-> arr_eq ck uk) /\
  (~ arr_eq ck uk -> 0 < calculate_ergodicity N ck uk) /\
  (forall k ck' uk', length ck' = N -> length uk' = N ->
     diffs_agree_except k ck uk ck' uk' ->
     Qabs (nth k ck 0 - nth k uk 0) < Qabs (nth k ck' 0 - nth k uk' 0) ->
     calculate_ergodicity N ck uk < calculate_ergodicity N ck' uk').
Proof.
  unfold calculate_ergodicity.
  assert (Hl : length (Lambdak N) = N) by apply Lambdak_length.
  pose proof (Lambdak_all_pos N) as Hpos.
  split; [|split].
  - apply erg_sum_zero_iff; [exact Hpos | congruence | congruence].
  - intro Hne. pose proof (erg_sum_nonneg (Lambdak N) ck uk Hpos).
    destruct (Qeq_dec (erg_sum (Lambdak N) ck uk) 0) as [Hz|Hz].
    + exfalso. apply Hne. apply (erg_sum_zero_iff (Lambdak N)); [exact Hpos | congruence | congruence | exact Hz].
    + apply Qle_lteq in H as [H|H]; [exact H|]. exfalso. apply Hz. symmetry. exact H.
  - intros k ck' uk' Hck' Huk' Hd Hk.
    apply (erg_sum_strict_mono _ _ _ _ _ k); first [exact Hpos | congruence | assumption].
Qed.

Lemma calculate_ergodicity_spec_witness :
  length [1; 2] = 2%nat /\ length [1; 3] = 2%nat /\
  (calculate_ergodicity 2 [1; 2] [1; 3] == 0 <-> arr_eq [1; 2] [1; 3]).
Proof.
  split; [reflexivity|]. split; [reflexivity|].
  apply (calculate_ergodicity_spec 2 [1; 2] [1; 3]); reflexivity.
Defined.

(** ** Helper facts: comparisons and quadrature *)

Module QuadFacts.

Lemma trapz_cons2 (y0 y1 x0 x1 : Q) (y x : list Q) :
  trapz (y0 :: y1 :: y) (x0 :: x1 :: x) = (x1 - x0) * (y0 + y1) / 2 + trapz (y1 :: y) (x1 :: x).
Proof. reflexivity. Qed.

Lemma nth_map_seq {A : Type} (f : nat -> A) (n i : nat) (d : A) :
  (i < n)%nat -> nth i (map f (seq 0 n)) d = f i.
Proof.
  intro Hi. rewrite nth_indep with (d' := f O) by (rewrite length_map, length_seq; exact Hi).
  rewrite map_nth, seq_nth by exact Hi. reflexivity.
Qed.

Lemma Qltb_true (a b : Q) : Qltb a b = true <-> a < b.
Proof.
  unfold Qltb. rewrite negb_true_iff. split.
  - intro H. apply Qnot_le_lt. intro H'. apply Qle_bool_iff in H'. congruence.
  - intro H. destruct (Qle_bool b a) eqn:E; [|reflexivity].
    apply Qle_bool_iff in E. lra.
Qed.

Lemma Qltb_false (a b : Q) : Qltb a b = false <-> b <= a.
Proof.
  unfold Qltb. rewrite negb_false_iff. apply Qle_bool_iff.
Qed.

Lemma trapz_nonneg (y x : list Q) :
  Forall (fun v => 0 <= v) y -> Grid.strictly_increasing x -> 0 <= trapz y x.
Proof.
  revert x. induction y as [|y0 y IH]; intros x Hy Hx; [apply Qle_refl|].
  destruct y as [|y1 y]; [destruct x; apply Qle_refl|].
  destruct x as [|x0 [|x1 x]]; [apply Qle_refl | apply Qle_refl|].
  inversion Hy; subst. inversion H2; subst. destruct Hx as [Hlt Hx].
  rewrite trapz_cons2. specialize (IH (x1 :: x) H2 Hx).
  assert (0 <= (x1 - x0) * (y0 + y1)) by (apply Qmult_le_0_compat; lra).
  assert (0 <= (x1 - x0) * (y0 + y1) / 2).
  { unfold Qdiv. apply Qmult_le_0_compat; [lra|]. discriminate. }
  lra.
Qed.

Lemma trapz_pos (y x : list Q) :
  Forall (fun v => 0 <= v) y -> Grid.strictly_increasing x ->
  length y = length x -> (2 <= length x)%nat ->
  Exists (fun v => 0 < v) y -> 0 < trapz y x.
Proof.
  revert x. induction y as [|y0 y IH]; intros x Hy Hx Hl H2 Hex.
  - inversion Hex.
  - destruct y as [|y1 y]; [destruct x as [|? [|? ?]]; simpl in *; lia|].
    destruct x as [|x0 [|x1 x]]; [simpl in *; lia | simpl in *; lia|].
    inversion Hy; subst. inversion H3; subst.
    pose proof Hx as [Hlt Hx'].
    rewrite trapz_cons2.
    assert (Hrest : 0 <= trapz (y1 :: y) (x1 :: x)) by (apply trapz_nonneg; assumption).
    assert (Hpos_or : 0 < y0 + y1 \/ Exists (fun v => 0 < v) y).
    { inversion Hex; subst; [left; lra|].
      inversion H0; subst; [left; lra | right; assumption]. }
    destruct Hpos_or as [Hp|Hp].
    + assert (0 < (x1 - x0) * (y0 + y1)) by (apply Qmult_lt_0_compat; lra).
      assert (0 < (x1 - x0) * (y0 + y1) / 2).
      { unfold Qdiv. apply Qmult_lt_0_compat; [lra|]. reflexivity. }
      lra.
    + destruct y as [|y2 y]; [inversion Hp|].
      destruct x as [|x2 x]; [simpl in Hl; lia|].
      assert (0 < trapz (y1 :: y2 :: y) (x1 :: x2 :: x)).
      { apply IH; try assumption. simpl in *; lia. simpl; lia. right. exact Hp. }
      assert (0 <= (x1 - x0) * (y0 + y1)) by (apply Qmult_le_0_compat; lra).
      assert (0 <= (x1 - x0) * (y0 + y1) / 2).
      { unfold Qdiv. apply Qmult_le_0_compat; [lra|]. discriminate. }
      lra.
Qed.

Lemma trapz_zero (y x : list Q) : Forall (fun v => v == 0) y -> trapz y x == 0.
Proof.
  revert x. induction y as [|y0 y IH]; intros x Hy; [reflexivity|].
  destruct y as [|y1 y]; [destruct x; reflexivity|].
  destruct x as [|x0 [|x1 x]]; try reflexivity.
  inversion Hy; subst. inversion H2; subst. rewrite trapz_cons2.
  rewrite (IH (x1 :: x) H2), H1, H3. field.
Qed.

End QuadFacts.

Import QuadFacts Grid.

(** ** Helper facts: the barrier's pointwise penalty *)

Module BarrierFacts.
Import Density.

Lemma barr_point_above (x : Q) : wlimit < x -> barr_point wlimit x == (x - wlimit) ^ 2.
Proof.
  intro H. unfold barr_point.
  assert (E1 : Qltb wlimit x = true) by (apply Qltb_true; exact H).
  assert (E2 : Qltb x 0 = false) by (apply Qltb_false; unfold wlimit in *; lra).
  rewrite E1, E2. ring.
Qed.

Lemma barr_point_below (x : Q) : x < 0 -> barr_point wlimit x == x ^ 2.
Proof.
  intro H. unfold barr_point.
  assert (E1 : Qltb wlimit x = false) by (apply Qltb_false; unfold wlimit in *; lra).
  assert (E2 : Qltb x 0 = true) by (apply Qltb_true; exact H).
  rewrite E1, E2. ring.
Qed.

Lemma barr_point_inside (x : Q) : 0 <= x <= wlimit -> barr_point wlimit x == 0.
Proof.
  intro H. unfold barr_point.
  assert (E1 : Qltb wlimit x = false) by (apply Qltb_false; lra).
  assert (E2 : Qltb x 0 = false) by (apply Qltb_false; lra).
  rewrite E1, E2. reflexivity.
Qed.

Lemma barr_point_nonneg (x : Q) : 0 <= barr_point wlimit x.
Proof.
  unfold barr_point. rewrite !sq_unfold.
  pose proof (sq_nonneg (x - wlimit)). pose proof (sq_nonneg x).
  destruct (Qltb wlimit x), (Qltb x 0); lra.
Qed.

Lemma barr_point_pos (x : Q) : x < 0 \/ wlimit < x -> 0 < barr_point wlimit x.
Proof.
  intros [H|H].
  - rewrite (barr_point_below x H), sq_unfold. nra.
  - rewrite (barr_point_above x H), sq_unfold.
    assert (0 < x - wlimit) by lra. nra.
Qed.

End BarrierFacts.

(** C4: with the time grid of the optimiser (strictly increasing, at
    least two points, as [time[1]] is read in the constructor) and one
    state sample per grid point, the pointwise barrier penalty is
    [(x - wlimit)^2] above the workspace, [x^2] below it and 0 inside;
    [barrier] is the [trapz] integral of these penalties, is exactly 0
    when every sample lies in [[0, wlimit]] and strictly positive when
    some sample lies outside. *)
Theorem barrier_spec (time xk : list Q)
    (Hlen : length xk = length time) (Hgrid : strictly_increasing time)
    (H2 : (2 <= length time)%nat) :
  (forall x, (wlimit < x -> Density.barr_point wlimit x == (x - wlimit) ^ 2) /\
             (x < 0 -> Density.barr_point wlimit x == x ^ 2) /\
             (0 <= x <= wlimit -> Density.barr_point wlimit x == 0)) /\
  Density.barrier wlimit time xk = trapz (map (Density.barr_point wlimit) xk) time /\
  (Forall (fun x => 0 <= x <= wlimit) xk -> Density.barrier wlimit time xk == 0) /\
  (Exists (fun x => x < 0 \/ wlimit < x) xk -> 0 < Density.barrier wlimit time xk).
Proof.
  split; [|split; [|split]].
  - intro x. split; [|split].
    + apply BarrierFacts.barr_point_above.
    + apply BarrierFacts.barr_point_below.
    + apply BarrierFacts.barr_point_inside.
  - reflexivity.
  - intro Hin. unfold Density.barrier. apply trapz_zero.
    apply Forall_map. eapply Forall_impl; [|exact Hin].
    intros x Hx. apply BarrierFacts.barr_point_inside. exact Hx.
  - intro Hout. unfold Density.barrier. apply trapz_pos.
    + apply Forall_map, Forall_forall. intros x _. apply BarrierFacts.barr_point_nonneg.
    + exact Hgrid.
    + rewrite length_map. exact Hlen.
    + exact H2.
    + apply Exists_map. eapply Exists_impl; [|exact Hout].
      intros x Hx. apply BarrierFacts.barr_point_pos. exact Hx.
Qed.

Lemma barrier_spec_witness :
  length [0; 2] = length [0; 1] /\ strictly_increasing [0; 1] /\ (2 <= length [0; 1])%nat /\
  (Exists (fun x => x < 0 \/ wlimit < x) [0; 2] -> 0 < Density.barrier wlimit [0; 1] [0; 2]).
Proof.
  split; [reflexivity|]. split; [split; [reflexivity | exact I]|]. split; [simpl; lia|].
  apply (barrier_spec [0; 1] [0; 2]); [reflexivity | split; [reflexivity | exact I] | simpl; lia].
Defined.

(** C3 (as amended): [cost X U] is the [trapz] integral over the grid of
    the control effort [0.5 * u * R * u] alone, and [eval_cost] is [cost]
    at the current trajectory.  The weight [Quinit] plays no part in the
    cost (changing it leaves the cost unchanged); it enters only the
    control gradient [dldu], whose first entry is [R * U[0] + uinit * Quinit]
    and whose other entries are [R * U[i]]. *)
Theorem cost_control_effort_only (o : Cost.Opt) (X U : list Q) (q : Q) :
  Cost.cost o X U ==
    trapz (map (fun i => 1 / 2 * (nth i U 0 * Cost.R o * nth i U 0))
               (seq 0 (length (Cost.time o)))) (Cost.time o) /\
  Cost.eval_cost o X U = Cost.cost o X U /\
  Cost.cost (Cost.mkOpt (Cost.time o) (Cost.R o) q (Cost.uinit o)) X U = Cost.cost o X U /\
  (forall i, (i < length (Cost.time o))%nat ->
     nth i (Cost.dldu o X U) 0 ==
       Cost.R o * nth i U 0 + (if Nat.eqb i 0 then Cost.uinit o * Cost.Quinit o else 0)).
Proof.
  split; [|split; [|split]].
  - reflexivity.
  - reflexivity.
  - destruct o. reflexivity.
  - intros i Hi. unfold Cost.dldu. rewrite nth_map_seq by exact Hi. reflexivity.
Qed.

(** C3, counterexample: two optimisers that differ only in [Quinit]
    give the same cost to a trajectory whose first control is nonzero,
    so the cost carries no [Quinit]-weighted term of the first control. *)
Lemma cost_Quinit_counterexample :
  ~ (forall (o o' : Cost.Opt) (X U : list Q),
       Cost.time o = Cost.time o' -> Cost.R o = Cost.R o' -> Cost.uinit o = Cost.uinit o' ->
       ~ Cost.Quinit o == Cost.Quinit o' -> ~ nth 0 U 0 == 0 ->
       ~ Cost.cost o X U == Cost.cost o' X U).
Proof.
  intro H.
  apply (H (Cost.mkOpt [0; 1] 1 0 1) (Cost.mkOpt [0; 1] 1 1 1) [0; 0] [1; 1]);
    try reflexivity; vm_compute; discriminate.
Qed.

(** C9: every right-hand side handed to the integrator ([peqns],
    [reqns], [zeqns], [fofx]) returns 0 at a time strictly outside
    [[time[0], time[-1]]], whatever the interpolants are: even
    interpolants that fail everywhere are never queried there. *)
Theorem rhs_zero_outside_horizon (time : list Q) (t : Q)
    (Hout : t < hd 0 time \/ last time 0 < t) :
  (forall pp Al Bl Rn Qn, Ode.peqns time t pp Al Bl Rn Qn = Some 0) /\
  (forall rr Al Bl a b Psol Rn Qn, Ode.reqns time t rr Al Bl a b Psol Rn Qn = Some 0) /\
  (forall zz Al Bl a b Psol Rsol Rn Qn, Ode.zeqns time t zz Al Bl a b Psol Rsol Rn Qn = Some 0) /\
  (forall X U, Ode.fofx time t X U = Some 0).
Proof.
  assert (E : Ode.out_of_range time t = true).
  { unfold Ode.out_of_range, Ode.t_first, Ode.t_last. apply orb_true_iff.
    destruct Hout as [H|H]; [right | left]; apply Qltb_true; exact H. }
  unfold Ode.peqns, Ode.reqns, Ode.zeqns, Ode.fofx. rewrite E.
  repeat split; reflexivity.
Qed.

Lemma rhs_zero_outside_horizon_witness :
  (2 < hd 0 [0; 1] \/ last [0; 1] 0 < 2) /\
  Ode.fofx [0; 1] 2 5 (fun _ => None) = Some 0.
Proof.
  split; [right; reflexivity|].
  apply (rhs_zero_outside_horizon [0; 1] 2). right. reflexivity.
Defined.

(** ** Helper facts: sums and the density normalisation *)

Module DensityFacts.
Import Density.

Lemma npsum_map_div (l : list Q) (d : Q) : npsum (map (fun p => p / d) l) == npsum l / d.
Proof.
  induction l as [|x l IH]; cbn [map npsum].
  - unfold Qdiv. ring.
  - rewrite IH. unfold Qdiv. ring.
Qed.

Lemma uk_sum_eq (cosf : Q -> Q) (h kl wl res : Q) (pdf xlist : list Q) :
  uk_sum cosf h kl wl res pdf xlist == weighted_sum cosf kl pdf xlist * wl / res / h.
Proof.
  revert xlist. induction pdf as [|p pdf IH]; intros [|x xlist]; cbn [uk_sum weighted_sum];
    try (unfold Qdiv; ring).
  rewrite IH. unfold Qdiv. ring.
Qed.

Lemma calculate_uk_nth (cosf : Q -> Q) (hk klist : list Q) (wl res : Q) (xlist pdf : list Q)
    (k : nat) :
  (k < length hk)%nat -> (k < length klist)%nat ->
  nth k (calculate_uk cosf hk klist wl res xlist pdf) 0 ==
    weighted_sum cosf (nth k klist 0) pdf xlist * wl / res / nth k hk 0.
Proof.
  revert klist k. induction hk as [|h hk IH]; intros klist k H1 H2; [simpl in H1; lia|].
  destruct klist as [|kl klist]; [simpl in H2; lia|].
  destruct k as [|k]; cbn [calculate_uk nth].
  - apply uk_sum_eq.
  - apply IH; simpl in *; lia.
Qed.

Lemma calculate_uk_length (cosf : Q -> Q) (hk klist : list Q) (wl res : Q) (xlist pdf : list Q) :
  length (calculate_uk cosf hk klist wl res xlist pdf) = Nat.min (length hk) (length klist).
Proof.
  revert klist. induction hk as [|h hk IH]; intros [|kl klist]; try reflexivity.
  simpl. rewrite IH. reflexivity.
Qed.

Lemma normalize_pdf_mean (r : list Q) :
  ~ npsum r == 0 ->
  exists npdf, normalize_pdf r = Some npdf /\
    npdf = map (fun p => p / (npsum r / inject_Z (Z.of_nat (length r)))) r /\
    npmean npdf == 1.
Proof.
  intro Hs.
  assert (Hn : ~ inject_Z (Z.of_nat (length r)) == 0).
  { destruct r as [|x r]; [exfalso; apply Hs; reflexivity|].
    change 0 with (inject_Z 0). rewrite inject_Z_injective. simpl. lia. }
  set (n := inject_Z (Z.of_nat (length r))) in *.
  assert (Hd : ~ npsum r / n == 0).
  { intro H. apply Hs. unfold Qdiv in H. apply Qmult_integral in H as [H|H]; [exact H|].
    exfalso. apply Hn. rewrite <- (Qinv_involutive n), H. reflexivity. }
  unfold normalize_pdf. fold n.
  destruct (Qeq_bool (npsum r / n) 0) eqn:E.
  { apply Qeq_bool_iff in E. contradiction. }
  eexists. split; [reflexivity|]. split; [reflexivity|].
  unfold npmean. rewrite length_map. fold n. rewrite npsum_map_div.
  field. split; assumption.
Qed.

End DensityFacts.

(** C6 (as amended): when the resampling of [pdf] on [xlist] succeeds and
    the resampled array [r] has a nonzero sum, [set_pdf] stores
    [r / (sum(r) / n)], whose mean is exactly 1, and sets each target
    coefficient to [uk[k] = sum(pdf * cos(klist[k] * x)) * wlimit / res / hk[k]]
    computed from that normalised array, for every [k < nFourier]. *)
Theorem set_pdf_spec (cosf : Q -> Q) (hk klist : list Q) (res : Q)
    (eidTime xlist pdf r : list Q)
    (Hr : map_opt (interp1d eidTime pdf) xlist = Some r) (Hs : ~ npsum r == 0) :
  exists npdf uk,
    Density.set_pdf cosf hk klist wlimit res eidTime xlist pdf = Some (npdf, uk) /\
    npdf = map (fun p => p / (npsum r / inject_Z (Z.of_nat (length r)))) r /\
    npmean npdf == 1 /\
    length uk = Nat.min (length hk) (length klist) /\
    (forall k, (k < length hk)%nat -> (k < length klist)%nat ->
       nth k uk 0 == Density.weighted_sum cosf (nth k klist 0) npdf xlist * wlimit / res / nth k hk 0).
Proof.
  destruct (DensityFacts.normalize_pdf_mean r Hs) as [npdf [Hn [Heq Hm]]].
  exists npdf, (Density.calculate_uk cosf hk klist wlimit res xlist npdf).
  unfold Density.set_pdf. rewrite Hr, Hn.
  split; [reflexivity|]. split; [exact Heq|]. split; [exact Hm|]. split.
  - apply DensityFacts.calculate_uk_length.
  - intros k H1 H2. apply DensityFacts.calculate_uk_nth; assumption.
Qed.

Lemma set_pdf_spec_witness :
  map_opt (interp1d [0; 1] [1; 3]) [0; 1 # 2; 1] = Some [1; 2; 3] /\
  ~ npsum [1; 2; 3] == 0 /\
  exists npdf uk,
    Density.set_pdf (fun _ => 1) [1] [0] wlimit 3 [0; 1] [0; 1 # 2; 1] [1; 3] = Some (npdf, uk) /\
    npdf = map (fun p => p / (npsum [1; 2; 3] / inject_Z (Z.of_nat (length [1; 2; 3])))) [1; 2; 3] /\
    npmean npdf == 1 /\
    length uk = Nat.min (length [1]) (length [0]) /\
    (forall k, (k < length [1])%nat -> (k < length [0])%nat ->
       nth k uk 0 == Density.weighted_sum (fun _ => 1) (nth k [0] 0) npdf [0; 1 # 2; 1] * wlimit / 3 / nth k [1] 0).
Proof.
  split; [vm_compute; reflexivity|]. split; [vm_compute; discriminate|].
  apply (set_pdf_spec (fun _ => 1) [1] [0] 3 [0; 1] [0; 1 # 2; 1] [1; 3] [1; 2; 3]).
  - vm_compute. reflexivity.
  - vm_compute. discriminate.
Defined.

(** C6, counterexample: for the all-zero density the resampled array
    sums to 0, the division of [normalize_pdf] yields NaN entries, and
    [set_pdf] produces no normalised array of mean 1. *)
Lemma set_pdf_zero_density_counterexample :
  ~ exists npdf uk,
      Density.set_pdf (fun _ => 1) [1] [0] wlimit 3 [0; 1] [0; 1 # 2; 1] [0; 0] = Some (npdf, uk) /\
      npmean npdf == 1.
Proof.
  intros [npdf [uk [H _]]]. vm_compute in H. discriminate.
Qed.

(** ** Helper facts: [np.max], [np.mean] and [normalize] *)

Module NormalizeFacts.

Lemma npmax_bound (l : list Q) (M : Q) : npmax l = Some M -> Forall (fun x => x <= M) l.
Proof.
  revert M. induction l as [|x l IH]; intros M H; [discriminate|].
  cbn [npmax] in H. destruct (npmax l) as [m|] eqn:E.
  - specialize (IH m eq_refl).
    destruct (Qle_bool x m) eqn:Ex; injection H as <-.
    + apply Qle_bool_iff in Ex. constructor; [exact Ex | exact IH].
    + assert (m < x).
      { apply Qnot_le_lt. intro Hc. apply Qle_bool_iff in Hc. congruence. }
      constructor; [apply Qle_refl|].
      eapply Forall_impl; [|exact IH]. intros y Hy. cbv beta in *. lra.
  - injection H as <-. destruct l; [|cbn [npmax] in E; destruct (npmax l); discriminate].
    constructor; [apply Qle_refl | constructor].
Qed.

Lemma arr_eq_map (f g : Q -> Q) (l : list Q) :
  (forall x, f x == g x) -> arr_eq (map f l) (map g l).
Proof.
  intro H. induction l as [|x l IH]; cbn [map]; constructor; [apply H | exact IH].
Qed.

Lemma npmax_map_mono (f : Q -> Q) (l : list Q) :
  (forall a b, a <= b <-> f a <= f b) ->
  npmax (map f l) = option_map f (npmax l).
Proof.
  intro Hf. induction l as [|x l IH]; [reflexivity|].
  cbn [map npmax]. rewrite IH. destruct (npmax l) as [m|]; cbn [option_map]; [|reflexivity].
  destruct (Qle_bool x m) eqn:E1, (Qle_bool (f x) (f m)) eqn:E2; try reflexivity;
    exfalso.
  - apply Qle_bool_iff, Hf in E1. apply Qle_bool_iff in E1. congruence.
  - apply Qle_bool_iff, Hf in E2. apply Qle_bool_iff in E2. congruence.
Qed.

Lemma npmax_some_nonempty (l : list Q) (M : Q) : npmax l = Some M -> l <> [].
Proof. destruct l; [discriminate | intros _; discriminate]. Qed.

Lemma npsum_map_affine (l : list Q) (c a : Q) :
  npsum (map (fun x => x / c + a) l) == npsum l / c + inject_Z (Z.of_nat (length l)) * a.
Proof.
  induction l as [|x l IH]; cbn [map npsum length].
  - unfold Qdiv. ring.
  - rewrite IH, Nat2Z.inj_succ, <- Z.add_1_r, inject_Z_plus. unfold Qdiv. ring.
Qed.

Lemma npsum_map_sub (l : list Q) (c : Q) :
  npsum (map (fun x => x - c) l) == npsum l - inject_Z (Z.of_nat (length l)) * c.
Proof.
  induction l as [|x l IH]; cbn [map npsum length].
  - ring.
  - rewrite IH, Nat2Z.inj_succ, <- Z.add_1_r, inject_Z_plus. ring.
Qed.

Lemma len_pos (l : list Q) : l <> [] -> 0 < inject_Z (Z.of_nat (length l)).
Proof.
  intro H. destruct l as [|x l]; [congruence|].
  change 0 with (inject_Z 0). rewrite <- Zlt_Qlt. simpl. lia.
Qed.

Lemma deviations_sum_zero (l : list Q) :
  l <> [] -> npsum (map (fun x => x - npmean l) l) == 0.
Proof.
  intro H. pose proof (len_pos l H) as Hn.
  rewrite npsum_map_sub. unfold npmean. field. lra.
Qed.

Lemma npsum_le (l : list Q) (M : Q) :
  Forall (fun x => x <= M) l -> npsum l <= inject_Z (Z.of_nat (length l)) * M.
Proof.
  induction 1 as [|x l Hx Hl IH]; cbn [npsum length].
  - change (inject_Z (Z.of_nat 0)) with 0. rewrite Qmult_0_l. apply Qle_refl.
  - rewrite Nat2Z.inj_succ, <- Z.add_1_r, inject_Z_plus, Qmult_plus_distr_l.
    change (inject_Z 1) with 1. rewrite Qmult_1_l. lra.
Qed.

Lemma max_deviation_nonneg (s : list Q) (M : Q) :
  npmax (map (fun x => x - npmean s) s) = Some M -> 0 <= M.
Proof.
  intro HM.
  pose proof (npmax_some_nonempty _ _ HM) as Hne.
  assert (Hs : s <> []) by (destruct s; [contradiction | discriminate]).
  pose proof (npmax_bound _ _ HM) as Hb.
  pose proof (npsum_le _ _ Hb) as Hle.
  rewrite (deviations_sum_zero s Hs), length_map in Hle.
  pose proof (len_pos s Hs) as Hn.
  apply Qnot_lt_le. intro HM0.
  assert (inject_Z (Z.of_nat (length s)) * M < 0).
  { setoid_replace (inject_Z (Z.of_nat (length s)) * M)
      with (- (inject_Z (Z.of_nat (length s)) * (- M))) by ring.
    assert (0 < inject_Z (Z.of_nat (length s)) * (- M)) by (apply Qmult_lt_0_compat; lra).
    lra. }
  lra.
Qed.

End NormalizeFacts.

(** C10 (as amended): for arrays [s], [t], a positive [gain] and
    [M = max(s - mean(s))] nonzero, [normalize] applies the
    same affine map [x -> (x - mean(s)) * gain / M + mid] to both arrays;
    the returned sensor series has mean exactly [mid] and maximum exactly
    [mid + gain]. *)
Theorem normalize_affine_mean_max (s t : list Q) (mid gain M : Q)
    (Hg : 0 < gain) (HM : npmax (map (fun x => x - npmean s) s) = Some M) (HM0 : ~ M == 0) :
  exists s' t',
    Normalize.normalize s t mid gain = Some (s', t') /\
    arr_eq s' (map (Normalize.affine (npmean s) M mid gain) s) /\
    arr_eq t' (map (Normalize.affine (npmean s) M mid gain) t) /\
    npmean s' == mid /\
    exists Mx, npmax s' = Some Mx /\ Mx == mid + gain.
Proof.
  pose proof (NormalizeFacts.max_deviation_nonneg s M HM) as HM1.
  assert (HMp : 0 < M) by (apply Qle_lteq in HM1 as [H|H]; [exact H | exfalso; apply HM0; symmetry; exact H]).
  assert (Hsc : 0 < M * / gain) by (apply Qmult_lt_0_compat; [exact HMp | apply Qinv_lt_0_compat; exact Hg]).
  unfold Normalize.normalize. rewrite HM.
  destruct (Qeq_bool gain 0) eqn:E1.
  { apply Qeq_bool_iff in E1. lra. }
  destruct (Qeq_bool (M * / gain) 0) eqn:E2.
  { apply Qeq_bool_iff in E2. lra. }
  set (c := M * / gain) in *.
  set (s1 := map (fun x => x - npmean s) s).
  eexists. eexists. split; [reflexivity|].
  assert (Hs : s <> []).
  { pose proof (NormalizeFacts.npmax_some_nonempty _ _ HM). destruct s; [contradiction | discriminate]. }
  assert (Hgn : ~ gain == 0) by lra.
  pose proof (NormalizeFacts.len_pos s Hs) as Hn.
  split; [|split; [|split]].
  - unfold s1. rewrite map_map. apply NormalizeFacts.arr_eq_map.
    intro x. unfold Normalize.affine, c. field. split; assumption.
  - rewrite map_map. apply NormalizeFacts.arr_eq_map.
    intro x. unfold Normalize.affine, c. field. split; assumption.
  - unfold npmean at 1. rewrite NormalizeFacts.npsum_map_affine, length_map.
    unfold s1. rewrite NormalizeFacts.deviations_sum_zero by exact Hs.
    rewrite length_map. field. split; lra.
  - exists (M / c + mid). split.
    + rewrite (NormalizeFacts.npmax_map_mono (fun x => x / c + mid)); [unfold s1; rewrite HM; reflexivity|].
      intros a b. unfold Qdiv.
      assert (Hic : 0 < / c) by (apply Qinv_lt_0_compat; exact Hsc).
      rewrite <- (Qmult_le_r a b (/ c) Hic). split; intro; lra.
    + unfold c. field. split; assumption.
Qed.

Lemma normalize_affine_mean_max_witness :
  0 < (1 # 10) /\
  npmax (map (fun x => x - npmean [0; 1; 2]) [0; 1; 2]) = Some (3 # 3) /\ ~ (3 # 3) == 0 /\
  exists s' t',
    Normalize.normalize [0; 1; 2] [0; 0; 0] (1 # 2) (1 # 10) = Some (s', t') /\
    arr_eq s' (map (Normalize.affine (npmean [0; 1; 2]) (3 # 3) (1 # 2) (1 # 10)) [0; 1; 2]) /\
    arr_eq t' (map (Normalize.affine (npmean [0; 1; 2]) (3 # 3) (1 # 2) (1 # 10)) [0; 0; 0]) /\
    npmean s' == (1 # 2) /\
    exists Mx, npmax s' = Some Mx /\ Mx == (1 # 2) + (1 # 10).
Proof.
  split; [reflexivity|]. split; [vm_compute; reflexivity|]. split; [discriminate|].
  apply (normalize_affine_mean_max [0; 1; 2] [0; 0; 0] (1 # 2) (1 # 10) (3 # 3)).
  - reflexivity.
  - vm_compute. reflexivity.
  - discriminate.
Defined.

(** C10, counterexample: with a negative [gain] the map reverses the
    order, and the maximum of the returned sensor series is not
    [mid + gain] ([s = [0; 1; 2]], [mid = 1/2], [gain = -1/10]: the
    maximum is [6/10], not [4/10]). *)
Lemma normalize_negative_gain_counterexample :
  ~ exists s' t' Mx,
      Normalize.normalize [0; 1; 2] [0; 0; 0] (1 # 2) (-1 # 10) = Some (s', t') /\
      npmax s' = Some Mx /\ Mx == (1 # 2) + (-1 # 10).
Proof.
  intros [s' [t' [Mx [H1 [H2 H3]]]]].
  vm_compute in H1. injection H1 as <- <-.
  vm_compute in H2. injection H2 as <-.
  vm_compute in H3. discriminate.
Qed.

(** ** Helper facts: the worker loop *)

Module WorkerFacts.
Import Worker.

Section Facts.

Variable job : Type.
Variable run : job -> option exn.

Local Abbreviation ok := (Notions.ok job run).
Local Abbreviation stops_at := (Notions.stops_at job run).

Lemma QueueWorker_ok_prefix (pre : list job) (rest : list (get_outcome job)) :
  Forall ok pre ->
  QueueWorker run (map Got pre ++ rest) = fold_right (push job) (QueueWorker run rest) pre.
Proof.
  induction 1 as [|j pre Hj Hpre IH]; [reflexivity|].
  cbn [map app fold_right QueueWorker]. unfold Notions.ok in Hj. rewrite Hj, IH. reflexivity.
Qed.

Lemma fold_push_Returned (pre started : list job) :
  fold_right (push job) (Returned started) pre = Returned (pre ++ started).
Proof. induction pre as [|j pre IH]; [reflexivity|]. simpl. rewrite IH. reflexivity. Qed.

Lemma fold_push_Raised (pre started : list job) (e : exn) :
  fold_right (push job) (Raised e started) pre = Raised e (pre ++ started).
Proof. induction pre as [|j pre IH]; [reflexivity|]. simpl. rewrite IH. reflexivity. Qed.

Lemma push_Returned (j : job) (o : outcome job) (started : list job) :
  push job j o = Returned started ->
  exists st, started = j :: st /\ o = Returned st.
Proof. destruct o; intro H; inversion H; subst; eauto. Qed.

Lemma push_Raised (j : job) (o : outcome job) (e : exn) (started : list job) :
  push job j o = Raised e started ->
  exists st, started = j :: st /\ o = Raised e st.
Proof. destruct o; intro H; inversion H; subst; eauto. Qed.

Lemma stops_at_cons (j : job) (e : exn) (started : list job) (gets : list (get_outcome job)) :
  ok j -> stops_at e started gets -> stops_at e (j :: started) (Got j :: gets).
Proof.
  intros Hj [[rest [H1 H2]] | [pre [j' [rest [H1 [H2 [H3 H4]]]]]]].
  - left. exists rest. split; [constructor; assumption | subst; reflexivity].
  - right. exists (j :: pre), j', rest. subst. repeat split; try reflexivity.
    + constructor; assumption.
    + exact H3.
Qed.

Lemma QueueWorker_stop (gets : list (get_outcome job)) :
  forall started,
    (QueueWorker run gets = Returned started -> stops_at Empty started gets) /\
    (forall e, QueueWorker run gets = Raised e started ->
               is_Empty e = false /\ stops_at e started gets).
Proof.
  induction gets as [|g gets IH]; intros started; cbn [QueueWorker].
  - split; [discriminate | intros e H; discriminate].
  - destruct g as [j|e0].
    + destruct (run j) as [e0|] eqn:Hr.
      * unfold handle. destruct e0 as [|c]; cbn [is_Empty].
        -- split; [|intros e H; discriminate].
           intro H. injection H as <-. right. exists [], j, gets.
           repeat split; [constructor | exact Hr].
        -- split; [discriminate|]. intros e H. injection H as <- <-.
           split; [reflexivity|]. right. exists [], j, gets.
           repeat split; [constructor | exact Hr].
      * split.
        -- intro H. apply push_Returned in H as [st [-> H]].
           apply stops_at_cons; [exact Hr|]. apply (proj1 (IH st)). exact H.
        -- intros e H. apply push_Raised in H as [st [-> H]].
           destruct (proj2 (IH st) e H) as [He Hs]. split; [exact He|].
           apply stops_at_cons; [exact Hr | exact Hs].
    + unfold handle. destruct e0 as [|c]; cbn [is_Empty].
      * split; [|intros e H; discriminate].
        intro H. injection H as <-. left. exists gets. split; [constructor | reflexivity].
      * split; [discriminate|]. intros e H. injection H as <- <-.
        split; [reflexivity|]. left. exists gets. split; [constructor | reflexivity].
Qed.

Lemma QueueWorker_of_stop (e : exn) (started : list job) (gets : list (get_outcome job)) :
  stops_at e started gets -> QueueWorker run gets = handle job e started.
Proof.
  intros [[rest [H1 ->]] | [pre [j [rest [-> [H2 [H3 ->]]]]]]].
  - rewrite QueueWorker_ok_prefix by exact H1. cbn [QueueWorker].
    unfold handle. destruct (is_Empty e).
    + rewrite fold_push_Returned, app_nil_r. reflexivity.
    + rewrite fold_push_Raised, app_nil_r. reflexivity.
  - rewrite QueueWorker_ok_prefix by exact H2. cbn [QueueWorker]. rewrite H3.
    unfold handle. destruct (is_Empty e).
    + rewrite fold_push_Returned. reflexivity.
    + rewrite fold_push_Raised. reflexivity.
Qed.

End Facts.

End WorkerFacts.

(** C8 (as amended): [QueueWorker] returns normally exactly when a
    [queue.Empty] exception reaches its handler before any other
    exception: a [get] timing out on the empty queue, or a job that
    raises [queue.Empty] itself (the [try] block covers the job too).
    Every other exception, from a [get] or from a job, leaves the worker
    unchanged (same exception); the jobs started are exactly those
    received up to that point, in order, each once, so the failing job is
    neither retried nor turned into a result. *)
Theorem QueueWorker_exits {job : Type} (run : job -> option Worker.exn)
    (gets : list (Worker.get_outcome job)) (started : list job) :
  (Worker.QueueWorker run gets = Worker.Returned started <->
     Notions.stops_at job run Worker.Empty started gets) /\
  (forall e, Worker.QueueWorker run gets = Worker.Raised e started <->
     Worker.is_Empty e = false /\ Notions.stops_at job run e started gets).
Proof.
  split.
  - split; [apply (WorkerFacts.QueueWorker_stop job run gets started)|].
    intro H. rewrite (WorkerFacts.QueueWorker_of_stop job run _ _ _ H). reflexivity.
  - intro e. split; [apply (WorkerFacts.QueueWorker_stop job run gets started)|].
    intros [He H]. rewrite (WorkerFacts.QueueWorker_of_stop job run _ _ _ H).
    unfold Worker.handle. rewrite He. reflexivity.
Qed.

(** C8, counterexample: a job that raises [queue.Empty] makes the
    worker return normally although no [get] timed out. *)
Lemma QueueWorker_job_Empty_counterexample :
  ~ (forall (run : unit -> option Worker.exn) (gets : list (Worker.get_outcome unit))
            (started : list unit),
       Worker.QueueWorker run gets = Worker.Returned started ->
       exists rest, gets = map Worker.Got started ++ Worker.GetRaised Worker.Empty :: rest).
Proof.
  intro H.
  destruct (H (fun _ => Some Worker.Empty) [Worker.Got tt] [tt] eq_refl) as [rest Hr].
  discriminate.
Qed.

(** ** Helper facts: the gain equation under the code's linearisation *)

Module OdeFacts.
Import Ode.

Lemma last_default (l : list Q) (d d' : Q) : l <> [] -> last l d = last l d'.
Proof.
  induction l as [|x l IH]; [congruence|]. intros _.
  destruct l as [|y l]; [reflexivity|]. apply IH. discriminate.
Qed.

Lemma Forall_map_const (c : Q) (l : list Q) : Forall (fun y => y == c) (map (fun _ => c) l).
Proof. induction l; constructor; [reflexivity | assumption]. Qed.

(** A constant array interpolates to that constant wherever [interp1d]
    finds a segment. *)
Lemma interp_seg_const (c t : Q) (xs : list Q) :
  forall ys, Forall (fun y => y == c) ys -> length xs = length ys ->
  (2 <= length xs)%nat -> t <= last xs 0 ->
  exists v, interp_seg xs ys t = Some v /\ v == c.
Proof.
  induction xs as [|x0 xr IH]; intros ys Hys Hl H2 Ht; [cbn in H2; lia|].
  destruct xr as [|x1 xr']; [cbn in H2; lia|].
  destruct ys as [|y0 [|y1 yr']]; [discriminate | discriminate|].
  inversion Hys as [|? ? Hy0 Hys']; subst. inversion Hys' as [|? ? Hy1 _]; subst.
  cbn [interp_seg]. destruct (Qle_bool t x1) eqn:Hle.
  - eexists; split; [reflexivity|]. rewrite Qred_correct.
    assert (Hd : y1 - y0 == 0) by lra. rewrite Hd.
    unfold Qdiv. rewrite Qmult_0_r, Qmult_0_l. lra.
  - destruct xr' as [|x2 xr''].
    + exfalso. cbn in Ht. apply Qle_bool_iff in Ht. congruence.
    + apply (IH (y1 :: yr')); [exact Hys' | cbn in Hl |- *; lia | cbn; lia | exact Ht].
Qed.

Lemma interp1d_const (c t : Q) (xs ys : list Q) :
  Forall (fun y => y == c) ys -> length xs = length ys -> (2 <= length xs)%nat ->
  hd 0 xs <= t -> t <= last xs 0 ->
  exists v, interp1d xs ys t = Some v /\ v == c.
Proof.
  intros Hys Hl H2 Hlo Hhi. destruct xs as [|x0 xr]; [cbn in H2; lia|].
  unfold interp1d. rewrite Hl, Nat.eqb_refl. cbn [negb].
  rewrite (last_default (x0 :: xr) x0 0) by discriminate.
  cbn [hd] in Hlo.
  assert (E1 : Qltb t x0 = false) by (apply Qltb_false; exact Hlo).
  assert (E2 : Qltb (last (x0 :: xr) 0) t = false) by (apply Qltb_false; exact Hhi).
  rewrite E1, E2. cbn [orb].
  apply interp_seg_const; [exact Hys | exact Hl | exact H2 | exact Hhi].
Qed.

(** At [P = 1], [peqns] with [A = 0], [B = 1] and [Qn = 1] vanishes. *)
Lemma peqns_at_one (time : list Q) (t y : Q) :
  (2 <= length time)%nat -> y == 1 ->
  exists v, peqns time t y (A_interp time) (B_interp time) Rn Qn = Some v /\ v == 0.
Proof.
  intros H2 Hy. unfold peqns. destruct (out_of_range time t) eqn:Hr.
  - exists 0. split; reflexivity.
  - unfold out_of_range in Hr. apply Bool.orb_false_iff in Hr as [Hhi Hlo].
    apply Qltb_false in Hhi. apply Qltb_false in Hlo.
    unfold t_last in Hhi. unfold t_first in Hlo.
    destruct (interp1d_const 0 t time (A_current time)) as [a [Ea Ha]];
      [apply Forall_map_const | unfold A_current; rewrite length_map; reflexivity
      | exact H2 | exact Hlo | exact Hhi |].
    destruct (interp1d_const 1 t time (B_current time)) as [b [Eb Hb]];
      [apply Forall_map_const | unfold B_current; rewrite length_map; reflexivity
      | exact H2 | exact Hlo | exact Hhi |].
    unfold A_interp, B_interp. rewrite Ea, Eb.
    eexists; split; [reflexivity|]. unfold Qn. rewrite Hy, Ha, Hb. lra.
Qed.

Section Fixed.

Variable f : Q -> Q -> option Q.
Hypothesis Hf : forall t y, y == 1 -> exists v, f t y = Some v /\ v == 0.

Lemma rk23_step_fixed (t h y : Q) :
  y == 1 -> exists y', rk23_step f t h y = Some y' /\ y' == 1.
Proof.
  intros Hy. unfold rk23_step, rk_stages.
  destruct (Hf t y Hy) as [k1 [E1 H1]]. rewrite E1.
  assert (Hy2 : y + h / 2 * k1 == 1) by (rewrite H1, Hy; ring).
  destruct (Hf (t + h / 2) _ Hy2) as [k2 [E2 H2]]. rewrite E2.
  assert (Hy3 : y + 3 / 4 * h * k2 == 1) by (rewrite H2, Hy; ring).
  destruct (Hf (t + 3 / 4 * h) _ Hy3) as [k3 [E3 H3]]. rewrite E3. cbv zeta.
  assert (Hy4 : Qred (y + h * (2 / 9 * k1 + 1 / 3 * k2 + 4 / 9 * k3)) == 1)
    by (rewrite Qred_correct, Hy, H1, H2, H3; ring).
  destruct (Hf (t + h) _ Hy4) as [k4 [E4 H4]]. rewrite E4.
  eexists; split; [reflexivity | exact Hy4].
Qed.

(** At the equilibrium every stage vanishes, so scipy's error norm of a
    step of any size is 0: the step is accepted. *)
Lemma rk23_error_fixed (t h y : Q) :
  y == 1 -> exists e, rk23_error_norm f t h y = Some e /\ e == 0.
Proof.
  intros Hy. unfold rk23_error_norm, rk_stages.
  destruct (Hf t y Hy) as [k1 [E1 H1]]. rewrite E1.
  assert (Hy2 : y + h / 2 * k1 == 1) by (rewrite H1, Hy; ring).
  destruct (Hf (t + h / 2) _ Hy2) as [k2 [E2 H2]]. rewrite E2.
  assert (Hy3 : y + 3 / 4 * h * k2 == 1) by (rewrite H2, Hy; ring).
  destruct (Hf (t + 3 / 4 * h) _ Hy3) as [k3 [E3 H3]]. rewrite E3. cbv zeta.
  assert (Hy4 : Qred (y + h * (2 / 9 * k1 + 1 / 3 * k2 + 4 / 9 * k3)) == 1)
    by (rewrite Qred_correct, Hy, H1, H2, H3; ring).
  destruct (Hf (t + h) _ Hy4) as [k4 [E4 H4]]. rewrite E4.
  eexists; split; [reflexivity|].
  assert (Herr : h * (5 / 72 * k1 - 1 / 12 * k2 - 1 / 9 * k3 + 1 / 8 * k4) == 0)
    by (rewrite H1, H2, H3, H4; ring).
  rewrite Herr. reflexivity.
Qed.

Lemma integrate_from_fixed (ts : list Q) :
  forall t y, y == 1 ->
  exists ys, integrate_from f t y ts = Some ys /\ Forall (fun p => p == 1) ys /\
             length ys = length ts.
Proof.
  induction ts as [|t' ts IH]; intros t y Hy.
  - exists []. repeat split; constructor.
  - cbn [integrate_from]. destruct (rk23_step_fixed t (t' - t) y Hy) as [y' [E Hy']].
    rewrite E. destruct (IH t' y' Hy') as [ys [E' [Hall Hl]]]. rewrite E'.
    exists (y' :: ys). repeat split; [constructor; assumption | cbn; lia].
Qed.

Lemma odeIntegrator_fixed (time : list Q) (y0 : Q) :
  time <> [] -> y0 == 1 ->
  exists ys, odeIntegrator time f y0 = Some ys /\ Forall (fun p => p == 1) ys /\
             length ys = length time.
Proof.
  intros Hne Hy. unfold odeIntegrator. destruct time as [|t0 ts]; [congruence|].
  destruct (integrate_from_fixed ts t0 y0 Hy) as [ys [E [Hall Hl]]]. rewrite E.
  exists (y0 :: ys). repeat split; [constructor; assumption | cbn; lia].
Qed.

End Fixed.

Lemma odeIntegrator_hd (time : list Q) (f : Q -> Q -> option Q) (y0 : Q) (ys : list Q) :
  odeIntegrator time f y0 = Some ys -> hd 0 ys = y0.
Proof.
  unfold odeIntegrator. destruct time as [|t0 ts]; [discriminate|].
  destruct (integrate_from f t0 y0 ts); intro E; inversion E; reflexivity.
Qed.

Lemma integrate_from_length (f : Q -> Q -> option Q) (ts : list Q) :
  forall t y ys, integrate_from f t y ts = Some ys -> length ys = length ts.
Proof.
  induction ts as [|t' ts IH]; intros t y ys E; cbn [integrate_from] in E.
  - inversion E; reflexivity.
  - destruct (rk23_step f t (t' - t) y) as [y'|]; [|discriminate].
    destruct (integrate_from f t' y' ts) as [ys'|] eqn:E'; [|discriminate].
    inversion E; subst. cbn. f_equal. eapply IH. exact E'.
Qed.

Lemma odeIntegrator_length (time : list Q) (f : Q -> Q -> option Q) (y0 : Q) (ys : list Q) :
  odeIntegrator time f y0 = Some ys -> length ys = length time.
Proof.
  unfold odeIntegrator. destruct time as [|t0 ts]; [discriminate|].
  destruct (integrate_from f t0 y0 ts) as [ys'|] eqn:E; intro H; [|discriminate].
  inversion H; subst. cbn. f_equal. eapply integrate_from_length. exact E.
Qed.

Lemma Forall_nth_Qeq (l : list Q) (c : Q) (i : nat) :
  Forall (fun p => p == c) l -> (i < length l)%nat -> nth i l 0 == c.
Proof.
  intros Hall Hi. rewrite Forall_forall in Hall. apply Hall. apply nth_In. exact Hi.
Qed.

(** The gain of [project]: every sample of [Ksol] equals 1. *)
Lemma Ksol_ones (time : list Q) :
  (2 <= length time)%nat ->
  exists Ks, Ksol time (A_interp time) (B_interp time) (B_current time) = Some Ks /\
             length Ks = length time /\
             forall i, (i < length time)%nat -> nth i Ks 0 == 1.
Proof.
  intros H2. unfold Ksol.
  destruct (odeIntegrator_fixed (fun t y => peqns time t y (A_interp time) (B_interp time) Rn Qn)
              (fun t y Hy => peqns_at_one time t y H2 Hy) time 1)
    as [ps [E [Hall Hl]]]; [destruct time; cbn in H2; [lia | discriminate] | reflexivity |].
  rewrite E. eexists; split; [reflexivity|]. split.
  - rewrite length_map, length_seq. reflexivity.
  - intros i Hi. rewrite nth_map_seq by exact Hi. cbn beta.
    rewrite (Forall_nth_Qeq ps 1 i Hall) by lia.
    rewrite (Forall_nth_Qeq (B_current time) 1 i (Forall_map_const 1 time))
      by (unfold B_current; rewrite length_map; exact Hi).
    reflexivity.
Qed.

End OdeFacts.

(** C2: at the linearisation the code builds ([dfdx] gives [A = 0],
    [dfdu] gives [B = 1], with [Qn = 1]), the samples [Psol] returns are
    those of the time-reversal convention: integrating the gain equation
    in [tau = T - t] from the terminal value [P1 = 1] and reversing gives
    the same array, every sample equal to [P1]; in particular the first
    returned sample is the value at [t = 0] of the solution with [P1]
    imposed at [t = T].  [Psol] itself integrates forward from
    [time[0]] without reversal; the two agree because [P = 1] is the
    equilibrium of [peqns] there.  scipy's error norm is 0 for a step of
    any size from that equilibrium, so it accepts every step it tries
    and its samples are these too. *)
Theorem Psol_matches_time_reversal (time : list Q) (H2 : (2 <= length time)%nat) :
  (exists ps pr,
     Ode.Psol time (Ode.A_interp time) (Ode.B_interp time) = Some ps /\
     Ode.Psol_time_reversed time (Ode.A_interp time) (Ode.B_interp time) = Some pr /\
     length ps = length time /\ Forall (fun p => p == 1) ps /\ arr_eq ps pr) /\
  (forall t h, exists e,
     Ode.rk23_error_norm
       (fun t y => Ode.peqns time t y (Ode.A_interp time) (Ode.B_interp time) Ode.Rn Ode.Qn) t h 1
     = Some e /\ e == 0).
Proof.
  split.
  - assert (Hne : time <> []) by (destruct time; cbn in H2; [lia | discriminate]).
    destruct (OdeFacts.odeIntegrator_fixed
                (fun t y => Ode.peqns time t y (Ode.A_interp time) (Ode.B_interp time) Ode.Rn Ode.Qn)
                (fun t y Hy => OdeFacts.peqns_at_one time t y H2 Hy) time 1 Hne (Qeq_refl 1))
      as [ps [Ep [Hp Hlp]]].
    assert (Hr : forall tau y, y == 1 -> exists v,
               (if Ode.out_of_range time tau then Some 0
                else Ode.peqns time (Ode.t_last time - tau) y
                       (Ode.A_interp time) (Ode.B_interp time) Ode.Rn Ode.Qn) = Some v /\ v == 0).
    { intros tau y Hy. destruct (Ode.out_of_range time tau).
      - exists 0. split; reflexivity.
      - apply OdeFacts.peqns_at_one; assumption. }
    destruct (OdeFacts.odeIntegrator_fixed _ Hr time 1 Hne (Qeq_refl 1)) as [qs [Eq [Hq Hlq]]].
    exists ps, (rev qs). unfold Ode.Psol, Ode.Psol_time_reversed. rewrite Ep, Eq.
    repeat split; try reflexivity; try assumption.
    unfold arr_eq. assert (Hq' : Forall (fun p => p == 1) (rev qs)) by (apply Forall_rev; exact Hq).
    assert (Hl : length ps = length (rev qs)) by (rewrite length_rev; lia).
    clear - Hp Hq' Hl. revert Hl Hq'. generalize (rev qs). induction Hp as [|p ps Hp1 Hps IH]; intros [|q qs'] Hl Hq'; try discriminate.
    + constructor.
    + inversion Hq'; subst. constructor; [rewrite Hp1; symmetry; assumption | apply IH; [cbn in Hl; lia | assumption]].
  - intros t h.
    exact (OdeFacts.rk23_error_fixed
             (fun t y => Ode.peqns time t y (Ode.A_interp time) (Ode.B_interp time) Ode.Rn Ode.Qn)
             (fun t y Hy => OdeFacts.peqns_at_one time t y H2 Hy) t h 1 (Qeq_refl 1)).
Qed.

Lemma Psol_matches_time_reversal_witness :
  le 2 (length ([0; 1 # 2; 1] : list Q)) /\
  ((exists ps pr,
      Ode.Psol [0; 1 # 2; 1] (Ode.A_interp [0; 1 # 2; 1]) (Ode.B_interp [0; 1 # 2; 1]) = Some ps /\
      Ode.Psol_time_reversed [0; 1 # 2; 1] (Ode.A_interp [0; 1 # 2; 1]) (Ode.B_interp [0; 1 # 2; 1])
        = Some pr /\
      length ps = length [0; 1 # 2; 1] /\ Forall (fun p => p == 1) ps /\ arr_eq ps pr) /\
   (forall t h, exists e,
      Ode.rk23_error_norm
        (fun t y => Ode.peqns [0; 1 # 2; 1] t y (Ode.A_interp [0; 1 # 2; 1])
                      (Ode.B_interp [0; 1 # 2; 1]) Ode.Rn Ode.Qn) t h 1
      = Some e /\ e == 0)).
Proof. split; [cbn; lia | apply (Psol_matches_time_reversal [0; 1 # 2; 1]); cbn; lia]. Defined.

(** C5 (as amended): [project] returns a state trajectory [Xp] that
    starts at [X0] and has one sample per grid point, and a control [Up]
    with [Up[i] = mu[i] + K[i] (alpha[i] - Xp[i])] at every grid point,
    where the gain [K] is 1 (the code's linearisation); [simulate X0 Up]
    starts at [X0] too.  It integrates the piecewise-linear interpolant
    of [Up] instead of the feedback law, so the later samples need not
    agree with [Xp]. *)
Theorem project_control_and_start (time alpha mu : list Q) (X0 : Q) (Xp Up : list Q)
    (H2 : (2 <= length time)%nat)
    (Hp : Ode.project time X0 alpha mu = Some (Xp, Up)) :
  hd 0 Xp = X0 /\ length Xp = length time /\ length Up = length time /\
  (forall i, (i < length time)%nat ->
     nth i Up 0 == nth i mu 0 + (nth i alpha 0 - nth i Xp 0)) /\
  (forall Xs, Ode.simulate time X0 Up = Some Xs -> hd 0 Xs = X0).
Proof.
  destruct (OdeFacts.Ksol_ones time H2) as [Ks [EK [HlK HK]]].
  unfold Ode.project in Hp. rewrite EK in Hp.
  destruct (Ode.odeIntegrator time _ X0) as [xs|] eqn:Ex; [|discriminate].
  inversion Hp; subst Xp Up. clear Hp.
  split; [exact (OdeFacts.odeIntegrator_hd _ _ _ _ Ex)|].
  split; [exact (OdeFacts.odeIntegrator_length _ _ _ _ Ex)|].
  split; [rewrite length_map, length_seq; reflexivity|].
  split.
  - intros i Hi. rewrite nth_map_seq by exact Hi. cbn beta. unfold Ode.projcontrol.
    rewrite (HK i Hi). ring.
  - intros Xs Es. exact (OdeFacts.odeIntegrator_hd _ _ _ _ Es).
Qed.

Lemma project_control_and_start_witness :
  le 2 (length ([0; 1 # 10] : list Q)) /\
  Ode.project [0; 1 # 10] 1 [0; 0] [0; 0] = Some ([1; 5429 # 6000], [-1; -5429 # 6000]) /\
  (hd 0 [1; 5429 # 6000] = 1 /\ length [1; 5429 # 6000] = length [0; 1 # 10] /\
   length [-1; -5429 # 6000] = length [0; 1 # 10] /\
   (forall i, lt i (length ([0; 1 # 10] : list Q)) ->
      nth i [-1; -5429 # 6000] 0 == nth i [0; 0] 0 + (nth i [0; 0] 0 - nth i [1; 5429 # 6000] 0)) /\
   (forall Xs, Ode.simulate [0; 1 # 10] 1 [-1; -5429 # 6000] = Some Xs -> hd 0 Xs = 1)).
Proof.
  split; [cbn; lia|]. split; [vm_compute; reflexivity|].
  apply (project_control_and_start [0; 1 # 10] [0; 0] [0; 0] 1 [1; 5429 # 6000] [-1; -5429 # 6000]);
    [cbn; lia | vm_compute; reflexivity].
Defined.

(** C5, counterexample: on the grid [[0; 1/10]] with [X0 = 1] and
    [alpha = mu = 0], the gain is [K = [1; 1]] and [project] gives
    [Xp = [1; 5429/6000]] (one RK23 step of [dx = -x]), but simulating
    its control [Up = [-1; -5429/6000]] gives [[1; 108571/120000]] (the
    trapezoid of the interpolated control).  The grid has one interval, so
    [first_step = max_step] reaches [time[-1]] in one step; scipy's error
    norm of that step is below 1 in each of the three integrations (0 for
    the gain and for [simulate], about 0.19 for [project]), so scipy
    accepts it and its samples are the ones above. *)
Lemma project_simulate_counterexample :
  Ode.Ksol [0; 1 # 10] (Ode.A_interp [0; 1 # 10]) (Ode.B_interp [0; 1 # 10])
    (Ode.B_current [0; 1 # 10]) = Some [1; 1] /\
  Ode.project [0; 1 # 10] 1 [0; 0] [0; 0] = Some ([1; 5429 # 6000], [-1; -5429 # 6000]) /\
  Ode.simulate [0; 1 # 10] 1 [-1; -5429 # 6000] = Some [1; 108571 # 120000] /\
  ~ arr_eq [1; 108571 # 120000] [1; 5429 # 6000] /\
  (exists e, Ode.rk23_error_norm
               (fun t y => Ode.peqns [0; 1 # 10] t y (Ode.A_interp [0; 1 # 10])
                             (Ode.B_interp [0; 1 # 10]) Ode.Rn Ode.Qn) 0 (1 # 10) 1 = Some e /\ e < 1) /\
  (exists e, Ode.rk23_error_norm
               (fun t y => Ode.proj [0; 1 # 10] t y (interp1d [0; 1 # 10] [1; 1])
                             (interp1d [0; 1 # 10] [0; 0]) (interp1d [0; 1 # 10] [0; 0])) 0 (1 # 10) 1
             = Some e /\ e < 1) /\
  (exists e, Ode.rk23_error_norm
               (fun t y => Ode.fofx [0; 1 # 10] t y (interp1d [0; 1 # 10] [-1; -5429 # 6000])) 0 (1 # 10) 1
             = Some e /\ e < 1).
Proof.
  split; [vm_compute; reflexivity|]. split; [vm_compute; reflexivity|].
  split; [vm_compute; reflexivity|]. split.
  - intro H. inversion H as [|? ? ? ? _ H']. inversion H' as [|? ? ? ? Hx _].
    discriminate Hx.
  - split; [|split]; (eexists; split; [vm_compute; reflexivity | vm_compute; reflexivity]).
Qed.

(** ** Helper facts: grids, [linspace] and interpolation on a segment *)

Module GridFacts.
Import Grid Linspace.

Lemma si_tail (x : Q) (r : list Q) : strictly_increasing (x :: r) -> strictly_increasing r.
Proof. destruct r as [|y r]; cbn; tauto. Qed.

Lemma si_head (r : list Q) :
  forall x, strictly_increasing (x :: r) -> forall j, (j < length r)%nat -> x < nth j r 0.
Proof.
  induction r as [|y r IH]; intros x Hs j Hj; [cbn in Hj; lia|].
  destruct Hs as [Hxy Hs]. destruct j as [|j]; [exact Hxy|].
  cbn [nth]. apply Qlt_trans with y; [exact Hxy|]. apply IH; [exact Hs | cbn in Hj; lia].
Qed.

Lemma si_nth_lt (l : list Q) :
  strictly_increasing l -> forall i j, (i < j)%nat -> (j < length l)%nat -> nth i l 0 < nth j l 0.
Proof.
  induction l as [|x r IH]; intros Hs i j Hij Hj; [cbn in Hj; lia|].
  destruct j as [|j]; [lia|]. destruct i as [|i].
  - cbn [nth]. apply si_head; [exact Hs | cbn in Hj; lia].
  - cbn [nth]. apply IH; [exact (si_tail x r Hs) | lia | cbn in Hj; lia].
Qed.

Lemma si_nth_le (l : list Q) :
  strictly_increasing l -> forall i j, (i <= j)%nat -> (j < length l)%nat -> nth i l 0 <= nth j l 0.
Proof.
  intros Hs i j Hij Hj. destruct (Nat.eq_dec i j) as [->|Hne]; [apply Qle_refl|].
  apply Qlt_le_weak. apply si_nth_lt; [exact Hs | lia | exact Hj].
Qed.

Lemma si_intro (l : list Q) :
  (forall i, (S i < length l)%nat -> nth i l 0 < nth (S i) l 0) -> strictly_increasing l.
Proof.
  induction l as [|x r IH]; intros H; [exact I|].
  destruct r as [|y r]; [exact I|]. split.
  - apply (H 0%nat). cbn; lia.
  - apply IH. intros i Hi. apply (H (S i)). cbn in Hi |- *; lia.
Qed.

Lemma last_nth (l : list Q) (d : Q) : l <> [] -> last l d = nth (length l - 1) l d.
Proof.
  induction l as [|x r IH]; intros Hne; [congruence|].
  destruct r as [|y r]; [reflexivity|].
  change (last (x :: y :: r) d) with (last (y :: r) d).
  rewrite IH by discriminate. cbn [length].
  replace (S (S (length r)) - 1)%nat with (S (S (length r) - 1)) by lia. reflexivity.
Qed.

Lemma hd_nth (l : list Q) : hd 0 l = nth 0 l 0.
Proof. destruct l; reflexivity. Qed.

(** [linspace] for at least two samples: the sampled prefix and [stop]. *)
Lemma linspace_eq (a b : Q) (m : nat) :
  linspace a b (S (S m)) =
  map (fun i => inject_Z (Z.of_nat i) * ((b - a) / inject_Z (Z.of_nat (S m))) + a) (seq 0 (S m))
  ++ [b].
Proof.
  unfold linspace. cbn [Nat.ltb Nat.leb]. replace (S (S m) - 1)%nat with (S m) by lia.
  cbn [Nat.leb]. f_equal. rewrite (seq_S (S m) 0), map_app. cbn [map].
  rewrite removelast_last. reflexivity.
Qed.

Lemma inject_nat_pos (n : nat) : (0 < n)%nat -> 0 < inject_Z (Z.of_nat n).
Proof.
  intros Hn. rewrite <- (Qmult_0_l 1). unfold Qlt. cbn. lia.
Qed.

Lemma inject_nat_le (i j : nat) : (i <= j)%nat -> inject_Z (Z.of_nat i) <= inject_Z (Z.of_nat j).
Proof. intros H. rewrite <- Zle_Qle. lia. Qed.

Lemma inject_nat_S (i : nat) : inject_Z (Z.of_nat (S i)) == inject_Z (Z.of_nat i) + 1.
Proof. rewrite Nat2Z.inj_succ, <- Z.add_1_r, inject_Z_plus. reflexivity. Qed.

Lemma linspace_length (a b : Q) (n : nat) : length (linspace a b n) = n.
Proof.
  destruct n as [|[|m]].
  - reflexivity.
  - reflexivity.
  - rewrite linspace_eq, length_app, length_map, length_seq. cbn. lia.
Qed.

Lemma linspace_nth (a b : Q) (n i : nat) :
  (2 <= n)%nat -> (i < n)%nat ->
  nth i (linspace a b n) 0 == inject_Z (Z.of_nat i) * ((b - a) / inject_Z (Z.of_nat (n - 1))) + a.
Proof.
  intros H2 Hi. destruct n as [|[|m]]; [lia | lia|].
  replace (S (S m) - 1)%nat with (S m) by lia. rewrite linspace_eq.
  destruct (Nat.eq_dec i (S m)) as [->|Hne].
  - rewrite app_nth2 by (rewrite length_map, length_seq; lia).
    rewrite length_map, length_seq, Nat.sub_diag. cbn [nth].
    assert (Hp : 0 < inject_Z (Z.of_nat (S m))) by (apply inject_nat_pos; lia).
    field. intro Hz. rewrite Hz in Hp. discriminate Hp.
  - rewrite app_nth1 by (rewrite length_map, length_seq; lia).
    rewrite nth_map_seq by lia. reflexivity.
Qed.

Lemma linspace_last (a b : Q) (n : nat) : (2 <= n)%nat -> last (linspace a b n) 0 = b.
Proof.
  intros H2. destruct n as [|[|m]]; [lia | lia|]. rewrite linspace_eq, last_last. reflexivity.
Qed.

Lemma linspace_step (a b : Q) (n i : nat) :
  (2 <= n)%nat -> (S i < n)%nat ->
  nth (S i) (linspace a b n) 0 - nth i (linspace a b n) 0 == (b - a) / inject_Z (Z.of_nat (n - 1)).
Proof.
  intros H2 Hi. rewrite !linspace_nth by lia. rewrite inject_nat_S. ring.
Qed.

Lemma linspace_increasing (a b : Q) (n : nat) :
  (2 <= n)%nat -> a < b -> strictly_increasing (linspace a b n).
Proof.
  intros H2 Hab. apply si_intro. intros i Hi. rewrite linspace_length in Hi.
  assert (Hs := linspace_step a b n i H2 Hi).
  assert (Hp : 0 < (b - a) / inject_Z (Z.of_nat (n - 1))).
  { apply Qlt_shift_div_l; [apply inject_nat_pos; lia | lra]. }
  lra.
Qed.

Lemma linspace_bounds (a b : Q) (n i : nat) :
  (2 <= n)%nat -> a <= b -> (i < n)%nat ->
  a <= nth i (linspace a b n) 0 <= b.
Proof.
  intros H2 Hab Hi. rewrite linspace_nth by assumption.
  assert (Hp : 0 < inject_Z (Z.of_nat (n - 1))) by (apply inject_nat_pos; lia).
  assert (Hle : inject_Z (Z.of_nat i) <= inject_Z (Z.of_nat (n - 1))) by (apply inject_nat_le; lia).
  assert (H0 : 0 <= inject_Z (Z.of_nat i)) by (change 0 with (inject_Z (Z.of_nat 0)); apply inject_nat_le; lia).
  set (I := inject_Z (Z.of_nat i)) in *. set (N := inject_Z (Z.of_nat (n - 1))) in *.
  assert (E : I * ((b - a) / N) == (b - a) * (I / N)) by (field; intro Hz; rewrite Hz in Hp; discriminate Hp).
  rewrite E.
  assert (Hq0 : 0 <= I / N) by (apply Qle_shift_div_l; [exact Hp | lra]).
  assert (Hq1 : I / N <= 1) by (apply Qle_shift_div_r; [exact Hp | lra]).
  split; nra.
Qed.

(** Interpolation inside the segment [[xs[i], xs[i+1]]] of a strictly
    increasing grid. *)
Lemma interp_seg_segment (xs : list Q) :
  forall ys i t, strictly_increasing xs -> length xs = length ys -> (S i < length xs)%nat ->
  nth i xs 0 <= t <= nth (S i) xs 0 ->
  exists v, interp_seg xs ys t = Some v /\
    v == nth i ys 0 + (t - nth i xs 0) * (nth (S i) ys 0 - nth i ys 0) / (nth (S i) xs 0 - nth i xs 0).
Proof.
  induction xs as [|x0 xr IH]; intros ys i t Hs Hl Hi Ht; [cbn in Hi; lia|].
  destruct xr as [|x1 xr']; [cbn in Hi; lia|].
  destruct ys as [|y0 [|y1 yr']]; [discriminate | discriminate|].
  cbn [interp_seg]. destruct (Qle_bool t x1) eqn:Hle.
  - apply Qle_bool_iff in Hle. eexists; split; [reflexivity|]. rewrite Qred_correct.
    destruct i as [|i]; [reflexivity|].
    (* t lies at the left end of a later segment, hence t = x1 and i = 0 *)
    cbn [nth] in Ht |- *.
    assert (Hx1 : x1 <= nth i (x1 :: xr') 0).
    { destruct i as [|i]; [apply Qle_refl|]. apply Qlt_le_weak.
      apply (si_head xr' x1 (si_tail x0 _ Hs)). cbn in Hi; lia. }
    destruct i as [|i].
    + cbn [nth] in Ht |- *.
      destruct xr' as [|x2 xr'']; [cbn in Hi; lia|].
      destruct yr' as [|y2 yr'']; [cbn in Hl; lia|]. cbn [nth] in Ht |- *.
      destruct Hs as [H01 [H12 _]].
      assert (Et : t == x1) by lra.
      rewrite Et. field; repeat split; intro Hz; lra.
    + exfalso. assert (Hlt : x1 < nth (S i) (x1 :: xr') 0).
      { cbn [nth]. apply (si_head xr' x1 (si_tail x0 _ Hs)). cbn in Hi; lia. }
      cbn [nth] in Hlt. lra.
  - assert (Hgt : x1 < t).
    { apply Qnot_le_lt. intro H. apply Qle_bool_iff in H. congruence. }
    destruct i as [|i]; [cbn [nth] in Ht; lra|].
    apply (IH (y1 :: yr') i t (si_tail x0 _ Hs)); [cbn in Hl |- *; lia | cbn in Hi |- *; lia | exact Ht].
Qed.

Lemma interp1d_segment (xs ys : list Q) (i : nat) (t : Q) :
  strictly_increasing xs -> length xs = length ys -> (S i < length xs)%nat ->
  nth i xs 0 <= t <= nth (S i) xs 0 ->
  exists v, interp1d xs ys t = Some v /\
    v == nth i ys 0 + (t - nth i xs 0) * (nth (S i) ys 0 - nth i ys 0) / (nth (S i) xs 0 - nth i xs 0).
Proof.
  intros Hs Hl Hi Ht. destruct xs as [|x0 xr]; [cbn in Hi; lia|].
  unfold interp1d. rewrite Hl, Nat.eqb_refl. cbn [negb].
  assert (Hlo : x0 <= t).
  { apply Qle_trans with (nth i (x0 :: xr) 0); [|apply Ht].
    change x0 with (nth 0 (x0 :: xr) 0) at 1. apply si_nth_le; [exact Hs | lia | lia]. }
  assert (Hhi : t <= last (x0 :: xr) x0).
  { rewrite last_nth by discriminate.
    apply Qle_trans with (nth (S i) (x0 :: xr) 0); [apply Ht|].
    rewrite (nth_indep (x0 :: xr) x0 0) by (cbn [length] in Hi |- *; lia).
    apply si_nth_le; [exact Hs | lia | cbn [length] in Hi |- *; lia]. }
  assert (E1 : Qltb t x0 = false) by (apply Qltb_false; exact Hlo).
  assert (E2 : Qltb (last (x0 :: xr) x0) t = false) by (apply Qltb_false; exact Hhi).
  rewrite E1, E2. cbn [orb]. apply interp_seg_segment; assumption.
Qed.

End GridFacts.

(** ** Helper facts: integrating a piecewise-linear right-hand side *)

Module SimFacts.
Import Ode Grid GridFacts.

Section Affine.

Variable f : Q -> Q -> option Q.

(** On [[t, t']] the right-hand side is the linear function of time
    through [(t, u)] and [(t', u')], whatever the state. *)
Definition affine_on (t t' u u' : Q) : Prop :=
  forall tau y, t <= tau <= t' ->
  exists v, f tau y = Some v /\ v == u + (tau - t) * (u' - u) / (t' - t).

Fixpoint seg_ok (ts us : list Q) : Prop :=
  match ts, us with
  | t :: ((t' :: _) as ts'), u :: ((u' :: _) as us') =>
      t < t' /\ affine_on t t' u u' /\ seg_ok ts' us'
  | _, _ => True
  end.

(** One Bogacki-Shampine step integrates a right-hand side that is linear
    in time exactly: the trapezoid [(t' - t) (u + u') / 2]. *)
Lemma rk23_step_affine (t t' u u' y : Q) :
  t < t' -> affine_on t t' u u' ->
  exists y', rk23_step f t (t' - t) y = Some y' /\ y' == y + (t' - t) * (u + u') / 2.
Proof.
  intros Htt Haff. unfold rk23_step, rk_stages.
  assert (Eh : (t' - t) / 2 == (1 # 2) * (t' - t)) by field.
  assert (Eh3 : 3 / 4 * (t' - t) == (3 # 4) * (t' - t)) by field.
  destruct (Haff t y) as [k1 [E1 H1]]; [lra|]. rewrite E1.
  destruct (Haff (t + (t' - t) / 2) (y + (t' - t) / 2 * k1)) as [k2 [E2 H2]]; [lra|]. rewrite E2.
  destruct (Haff (t + 3 / 4 * (t' - t)) (y + 3 / 4 * (t' - t) * k2)) as [k3 [E3 H3]]; [lra|].
  rewrite E3. cbv zeta.
  destruct (Haff (t + (t' - t)) (Qred (y + (t' - t) * (2 / 9 * k1 + 1 / 3 * k2 + 4 / 9 * k3))))
    as [k4 [E4 _]]; [lra|].
  rewrite E4. eexists; split; [reflexivity|].
  rewrite Qred_correct, H1, H2, H3. field. intro Hz. lra.
Qed.

(** scipy's error estimate of that step is 0: both the third-order
    solution and the embedded second-order one are exact for a
    right-hand side linear in time, so scipy accepts the step. *)
Lemma rk23_error_affine (t t' u u' y : Q) :
  t < t' -> affine_on t t' u u' ->
  exists e, rk23_error_norm f t (t' - t) y = Some e /\ e == 0.
Proof.
  intros Htt Haff. unfold rk23_error_norm, rk_stages.
  assert (Eh : (t' - t) / 2 == (1 # 2) * (t' - t)) by field.
  assert (Eh3 : 3 / 4 * (t' - t) == (3 # 4) * (t' - t)) by field.
  destruct (Haff t y) as [k1 [E1 H1]]; [lra|]. rewrite E1.
  destruct (Haff (t + (t' - t) / 2) (y + (t' - t) / 2 * k1)) as [k2 [E2 H2]]; [lra|]. rewrite E2.
  destruct (Haff (t + 3 / 4 * (t' - t)) (y + 3 / 4 * (t' - t) * k2)) as [k3 [E3 H3]]; [lra|].
  rewrite E3. cbv zeta.
  destruct (Haff (t + (t' - t)) (Qred (y + (t' - t) * (2 / 9 * k1 + 1 / 3 * k2 + 4 / 9 * k3))))
    as [k4 [E4 H4]]; [lra|].
  rewrite E4. eexists; split; [reflexivity|].
  assert (Herr : (t' - t) * (5 / 72 * k1 - 1 / 12 * k2 - 1 / 9 * k3 + 1 / 8 * k4) == 0).
  { rewrite H1, H2, H3, H4. field. intro Hz. lra. }
  rewrite Herr. reflexivity.
Qed.

Lemma integrate_from_trapz (ts : list Q) :
  forall us t u y, seg_ok (t :: ts) (u :: us) -> length ts = length us ->
  exists ys, integrate_from f t y ts = Some ys /\ length ys = length ts /\
    forall j, (j < length ts)%nat ->
      nth j ys 0 == y + trapz (firstn (S (S j)) (u :: us)) (firstn (S (S j)) (t :: ts)).
Proof.
  induction ts as [|t' ts IH]; intros us t u y Hok Hl.
  - exists []. repeat split. intros j Hj. cbn in Hj. lia.
  - destruct us as [|u' us]; [discriminate|].
    destruct Hok as [Htt [Haff Hok]].
    destruct (rk23_step_affine t t' u u' y Htt Haff) as [y' [E Hy']].
    destruct (IH us t' u' y' Hok) as [ys [Ey [Hly Hys]]]; [cbn in Hl; lia|].
    cbn [integrate_from]. rewrite E, Ey. exists (y' :: ys). split; [reflexivity|].
    split; [cbn; lia|]. intros j Hj. destruct j as [|j].
    + cbn [nth firstn]. rewrite trapz_cons2. cbn [trapz]. rewrite Hy'. field.
    + cbn [nth]. rewrite (Hys j) by (cbn in Hj; lia).
      change (firstn (S (S (S j))) (u :: u' :: us)) with (u :: firstn (S (S j)) (u' :: us)).
      change (firstn (S (S (S j))) (t :: t' :: ts)) with (t :: firstn (S (S j)) (t' :: ts)).
      cbn [firstn]. rewrite trapz_cons2. rewrite Hy'. field.
Qed.

End Affine.

Lemma seg_ok_intro (f : Q -> Q -> option Q) (ts : list Q) :
  forall us, length ts = length us ->
  (forall i, (S i < length ts)%nat ->
     nth i ts 0 < nth (S i) ts 0 /\
     affine_on f (nth i ts 0) (nth (S i) ts 0) (nth i us 0) (nth (S i) us 0)) ->
  seg_ok f ts us.
Proof.
  induction ts as [|t ts IH]; intros us Hl H; [exact I|].
  destruct us as [|u us]; [discriminate|].
  destruct ts as [|t' ts']; [exact I|]. destruct us as [|u' us']; [discriminate|].
  destruct (H 0%nat) as [H1 H2]; [cbn; lia|]. split; [exact H1|]. split; [exact H2|].
  apply IH; [cbn in Hl |- *; lia|]. intros i Hi. apply (H (S i)). cbn in Hi |- *; lia.
Qed.

(** The right-hand side of [simulate] on a strictly increasing grid. *)
Lemma fofx_affine (time U : list Q) (i : nat) :
  strictly_increasing time -> length U = length time -> (S i < length time)%nat ->
  affine_on (fun t y => fofx time t y (interp1d time U))
            (nth i time 0) (nth (S i) time 0) (nth i U 0) (nth (S i) U 0).
Proof.
  intros Hs Hl Hi tau y Ht. unfold fofx.
  assert (Hne : time <> []) by (destruct time; [cbn in Hi; lia | discriminate]).
  assert (Hr : out_of_range time tau = false).
  { unfold out_of_range, t_last, t_first. apply Bool.orb_false_iff. split; apply Qltb_false.
    - apply Qle_trans with (nth (S i) time 0); [apply Ht|].
      rewrite last_nth by exact Hne. apply si_nth_le; [exact Hs | lia | lia].
    - apply Qle_trans with (nth i time 0); [|apply Ht].
      rewrite hd_nth. apply si_nth_le; [exact Hs | lia | lia]. }
  rewrite Hr. apply interp1d_segment; [exact Hs | symmetry; exact Hl | exact Hi | exact Ht].
Qed.

End SimFacts.

(** ** Helper facts: resampling with [interp1d] *)

Module ResampleFacts.
Import Grid GridFacts.

Lemma map_opt_some {A B : Type} (f : A -> option B) (l : list A) :
  (forall x, In x l -> exists v, f x = Some v) ->
  exists r, map_opt f l = Some r /\ length r = length l.
Proof.
  induction l as [|x l IH]; intros H; [exists []; split; reflexivity|].
  destruct (H x (or_introl eq_refl)) as [v Ev].
  destruct IH as [r [Er Hr]]; [intros z Hz; apply H; right; exact Hz|].
  exists (v :: r). cbn [map_opt]. rewrite Ev, Er. split; [reflexivity | cbn; lia].
Qed.

Lemma map_opt_none {A B : Type} (f : A -> option B) (l : list A) (x : A) :
  In x l -> f x = None -> map_opt f l = None.
Proof.
  induction l as [|z l IH]; intros Hin Hx; [destruct Hin|].
  cbn [map_opt]. destruct Hin as [->|Hin].
  - rewrite Hx. reflexivity.
  - rewrite (IH Hin Hx). destruct (f z); reflexivity.
Qed.

Lemma interp_seg_some (t : Q) (xs : list Q) :
  forall ys, length xs = length ys -> (2 <= length xs)%nat -> t <= last xs 0 ->
  exists v, interp_seg xs ys t = Some v.
Proof.
  induction xs as [|x0 xr IH]; intros ys Hl H2 Ht; [cbn in H2; lia|].
  destruct xr as [|x1 xr']; [cbn in H2; lia|].
  destruct ys as [|y0 [|y1 yr']]; [discriminate | cbn in Hl; lia|].
  cbn [interp_seg]. destruct (Qle_bool t x1) eqn:Hle; [eexists; reflexivity|].
  destruct xr' as [|x2 xr''].
  - exfalso. cbn in Ht. apply Qle_bool_iff in Ht. congruence.
  - apply (IH (y1 :: yr')); [cbn in Hl |- *; lia | cbn; lia | exact Ht].
Qed.

Lemma interp1d_some (xs ys : list Q) (t : Q) :
  length xs = length ys -> (2 <= length xs)%nat -> hd 0 xs <= t -> t <= last xs 0 ->
  exists v, interp1d xs ys t = Some v.
Proof.
  intros Hl H2 Hlo Hhi. destruct xs as [|x0 xr]; [cbn in H2; lia|].
  unfold interp1d. rewrite Hl, Nat.eqb_refl. cbn [negb].
  rewrite (OdeFacts.last_default (x0 :: xr) x0 0) by discriminate.
  assert (E1 : Qltb t x0 = false) by (apply Qltb_false; exact Hlo).
  assert (E2 : Qltb (last (x0 :: xr) 0) t = false) by (apply Qltb_false; exact Hhi).
  rewrite E1, E2. cbn [orb]. apply interp_seg_some; [exact Hl | exact H2 | exact Hhi].
Qed.

Lemma interp1d_out (xs ys : list Q) (t : Q) :
  t < hd 0 xs \/ last xs 0 < t -> interp1d xs ys t = None.
Proof.
  intros Ht. destruct xs as [|x0 xr]; [reflexivity|]. unfold interp1d.
  destruct (negb (Nat.eqb (length (x0 :: xr)) (length ys))); [reflexivity|].
  rewrite (OdeFacts.last_default (x0 :: xr) x0 0) by discriminate.
  destruct Ht as [Ht|Ht].
  - assert (E : Qltb t x0 = true) by (apply Qltb_true; exact Ht). rewrite E. reflexivity.
  - assert (E : Qltb (last (x0 :: xr) 0) t = true) by (apply Qltb_true; exact Ht).
    rewrite E, Bool.orb_true_r. reflexivity.
Qed.

End ResampleFacts.

(** X1: [np.linspace(start, stop, num)] with at least two samples and
    [start < stop] has [num] samples, begins at [start], ends exactly at
    [stop], is strictly increasing, and has the constant step
    [(stop - start) / (num - 1)]. *)
Theorem linspace_grid (a b : Q) (n : nat) (H2 : (2 <= n)%nat) (Hab : a < b) :
  length (Linspace.linspace a b n) = n /\
  hd 0 (Linspace.linspace a b n) == a /\
  last (Linspace.linspace a b n) 0 = b /\
  Grid.strictly_increasing (Linspace.linspace a b n) /\
  (forall i, (S i < n)%nat ->
     nth (S i) (Linspace.linspace a b n) 0 - nth i (Linspace.linspace a b n) 0
     == (b - a) / inject_Z (Z.of_nat (n - 1))).
Proof.
  split; [apply GridFacts.linspace_length|].
  split; [rewrite GridFacts.hd_nth, GridFacts.linspace_nth by lia; ring|].
  split; [apply GridFacts.linspace_last; exact H2|].
  split; [apply GridFacts.linspace_increasing; assumption|].
  intros i Hi. apply GridFacts.linspace_step; assumption.
Qed.

Lemma linspace_grid_witness :
  (2 <= 3)%nat /\ 0 < 1 /\
  (length (Linspace.linspace 0 1 3) = 3%nat /\
   hd 0 (Linspace.linspace 0 1 3) == 0 /\
   last (Linspace.linspace 0 1 3) 0 = 1 /\
   Grid.strictly_increasing (Linspace.linspace 0 1 3) /\
   (forall i, (S i < 3)%nat ->
      nth (S i) (Linspace.linspace 0 1 3) 0 - nth i (Linspace.linspace 0 1 3) 0
      == (1 - 0) / inject_Z (Z.of_nat (3 - 1)))).
Proof.
  split; [lia|]. split; [reflexivity|].
  apply (linspace_grid 0 1 3); [lia | reflexivity].
Defined.

(** X2: with the grids the code builds, [eidTime = linspace(0, T, res)]
    and [xlist = linspace(0, 1, tRes)], the resampling in [set_pdf]
    fails (ValueError) for every density when the horizon [T] is below 1,
    whatever the other arguments; when [T >= 1] it succeeds for every
    density of [res] samples and gives [tRes] values. *)
Theorem set_pdf_resampling_horizon (T : Q) (res tRes : nat) (pdf : list Q)
    (HT : 0 < T) (Hres : (2 <= res)%nat) (HtRes : (2 <= tRes)%nat) (Hl : length pdf = res) :
  (T < 1 -> forall cosf hk klist wlimit resq,
     Density.set_pdf cosf hk klist wlimit resq (Linspace.linspace 0 T res)
                     (Linspace.linspace 0 1 tRes) pdf = None) /\
  (1 <= T -> exists r,
     map_opt (interp1d (Linspace.linspace 0 T res) pdf) (Linspace.linspace 0 1 tRes) = Some r /\
     length r = tRes).
Proof.
  split.
  - intros HT1 cosf hk klist wlimit resq. unfold Density.set_pdf.
    rewrite (ResampleFacts.map_opt_none _ _ 1); [reflexivity| |].
    + assert (Hne : Linspace.linspace 0 1 tRes <> []).
      { intro E. pose proof (GridFacts.linspace_length 0 1 tRes) as L. rewrite E in L. cbn in L. lia. }
      rewrite <- (GridFacts.linspace_last 0 1 tRes HtRes) at 1.
      rewrite GridFacts.last_nth by exact Hne. apply nth_In.
      rewrite GridFacts.linspace_length. lia.
    + apply ResampleFacts.interp1d_out. right.
      rewrite GridFacts.linspace_last by exact Hres. exact HT1.
  - intros HT1.
    destruct (ResampleFacts.map_opt_some (interp1d (Linspace.linspace 0 T res) pdf)
                (Linspace.linspace 0 1 tRes)) as [r [Er Hr]];
      [|exists r; split; [exact Er | rewrite Hr; apply GridFacts.linspace_length]].
    intros x Hx.
    apply In_nth with (d := 0) in Hx as [i [Hi Ex]]. rewrite GridFacts.linspace_length in Hi.
    destruct (GridFacts.linspace_bounds 0 1 tRes i HtRes) as [Hx0 Hx1]; [lra | exact Hi|].
    rewrite Ex in Hx0, Hx1.
    apply ResampleFacts.interp1d_some.
    + rewrite GridFacts.linspace_length. symmetry. exact Hl.
    + rewrite GridFacts.linspace_length. exact Hres.
    + rewrite GridFacts.hd_nth, GridFacts.linspace_nth by lia.
      assert (E0 : inject_Z (Z.of_nat 0) * ((T - 0) / inject_Z (Z.of_nat (res - 1))) + 0 == 0) by ring.
      rewrite E0. exact Hx0.
    + rewrite GridFacts.linspace_last by exact Hres. lra.
Qed.

Lemma set_pdf_resampling_horizon_witness :
  0 < 1 /\ (2 <= 3)%nat /\ (2 <= 2)%nat /\ length [1; 2; 3] = 3%nat /\
  ((1 < 1 -> forall cosf hk klist wlimit resq,
      Density.set_pdf cosf hk klist wlimit resq (Linspace.linspace 0 1 3)
                      (Linspace.linspace 0 1 2) [1; 2; 3] = None) /\
   (1 <= 1 -> exists r,
      map_opt (interp1d (Linspace.linspace 0 1 3) [1; 2; 3]) (Linspace.linspace 0 1 2) = Some r /\
      length r = 2%nat)).
Proof.
  split; [reflexivity|]. split; [lia|]. split; [lia|]. split; [reflexivity|].
  apply (set_pdf_resampling_horizon 1 3 2 [1; 2; 3]); [reflexivity | lia | lia | reflexivity].
Defined.

(** X3: on the grid the code uses, [np.linspace(0, T, n)] with [T > 0]
    and [n >= 2], every interval is [time[1] - time[0]], the solver's
    [first_step] and [max_step], and scipy's error estimate of the RK23
    step over each interval is 0 for the right-hand side of [simulate]
    (so scipy accepts it, and the next step is again [max_step]); and
    [simulate(X0, U)] returns, at every grid point [time[i]], [X0] plus
    the trapezoidal integral of the control samples over [time[0..i]]:
    the single-integrator dynamics driven by the linear interpolant of
    [U] is integrated exactly. *)
Theorem simulate_cumulative_trapz (T : Q) (n : nat) (U : list Q) (X0 : Q)
    (H2 : (2 <= n)%nat) (HT : 0 < T) (Hl : length U = n) :
  let time := Linspace.linspace 0 T n in
  (forall i, (S i < n)%nat ->
     nth (S i) time 0 - nth i time 0 == nth 1 time 0 - nth 0 time 0) /\
  (forall i y, (S i < n)%nat -> exists e,
     Ode.rk23_error_norm (fun t y => Ode.fofx time t y (interp1d time U))
       (nth i time 0) (nth (S i) time 0 - nth i time 0) y = Some e /\ e == 0) /\
  exists Xs, Ode.simulate time X0 U = Some Xs /\ length Xs = n /\
    forall i, (i < n)%nat ->
      nth i Xs 0 == X0 + trapz (firstn (S i) U) (firstn (S i) time).
Proof.
  intros time.
  assert (Hs : Grid.strictly_increasing time)
    by (apply GridFacts.linspace_increasing; [exact H2 | exact HT]).
  assert (Hlt : length time = n) by apply GridFacts.linspace_length.
  assert (Hl' : length U = length time) by lia.
  assert (Hne : time <> []) by (intro E; rewrite E in Hlt; cbn in Hlt; lia).
  split; [|split].
  - intros i Hi. unfold time.
    rewrite (GridFacts.linspace_step 0 T n i H2 Hi), (GridFacts.linspace_step 0 T n 0 H2 ltac:(lia)).
    reflexivity.
  - intros i y Hi.
    apply (SimFacts.rk23_error_affine _ _ _ (nth i U 0) (nth (S i) U 0)).
    + apply GridFacts.si_nth_lt; [exact Hs | lia | lia].
    + apply SimFacts.fofx_affine; [exact Hs | exact Hl' | lia].
  - set (f := fun t y => Ode.fofx time t y (interp1d time U)).
    assert (Hok : SimFacts.seg_ok f time U).
    { apply SimFacts.seg_ok_intro; [symmetry; exact Hl'|]. intros i Hi. split.
      - apply GridFacts.si_nth_lt; [exact Hs | lia | exact Hi].
      - apply SimFacts.fofx_affine; assumption. }
    unfold Ode.simulate, Ode.odeIntegrator. fold f.
    clearbody time. destruct time as [|t0 ts]; [congruence|]. destruct U as [|u0 us]; [discriminate|].
    destruct (SimFacts.integrate_from_trapz f ts us t0 u0 X0 Hok) as [ys [Ey [Hly Hys]]];
      [cbn in Hl'; lia|].
    rewrite Ey. exists (X0 :: ys). split; [reflexivity|]. split; [cbn in *; lia|].
    intros i Hi. destruct i as [|i].
    + cbn [nth firstn trapz]. ring.
    + cbn [nth]. apply Hys. cbn in Hlt. lia.
Qed.

Lemma simulate_cumulative_trapz_witness :
  le 2 2 /\ 0 < 1 /\ length [2; 0; 4] = 3%nat /\
  (let time := Linspace.linspace 0 1 3 in
   (forall i, lt (S i) 3 ->
      nth (S i) time 0 - nth i time 0 == nth 1 time 0 - nth 0 time 0) /\
   (forall i y, lt (S i) 3 -> exists e,
      Ode.rk23_error_norm (fun t y => Ode.fofx time t y (interp1d time [2; 0; 4]))
        (nth i time 0) (nth (S i) time 0 - nth i time 0) y = Some e /\ e == 0) /\
   exists Xs, Ode.simulate time 1 [2; 0; 4] = Some Xs /\ length Xs = 3%nat /\
     forall i, lt i 3 ->
       nth i Xs 0 == 1 + trapz (firstn (S i) [2; 0; 4]) (firstn (S i) time)).
Proof.
  split; [lia|]. split; [reflexivity|]. split; [reflexivity|].
  apply (simulate_cumulative_trapz 1 3 [2; 0; 4] 1); [lia | reflexivity | reflexivity].
Defined.

(** X4: the interpolants the code builds with [interp1d] over a strictly
    increasing grid reproduce the samples at the grid points, and raise
    ValueError ([None]) at any time before the first or after the last
    grid point. *)
Theorem interp1d_nodes_and_bounds (xs ys : list Q)
    (Hs : Grid.strictly_increasing xs) (Hl : length xs = length ys) (H2 : (2 <= length xs)%nat) :
  (forall i, (i < length xs)%nat ->
     exists v, interp1d xs ys (nth i xs 0) = Some v /\ v == nth i ys 0) /\
  (forall t, t < hd 0 xs \/ last xs 0 < t -> interp1d xs ys t = None).
Proof.
  split; [|intros t Ht; apply ResampleFacts.interp1d_out; exact Ht].
  intros i Hi. destruct (Nat.lt_ge_cases (S i) (length xs)) as [HSi|HSi].
  - assert (Hlt : nth i xs 0 < nth (S i) xs 0) by (apply GridFacts.si_nth_lt; [exact Hs | lia | exact HSi]).
    destruct (GridFacts.interp1d_segment xs ys i (nth i xs 0) Hs Hl HSi) as [v [Ev Hv]].
    + split; [apply Qle_refl | apply Qlt_le_weak; exact Hlt].
    + exists v. split; [exact Ev|]. rewrite Hv. field. intro Hz. lra.
  - destruct i as [|j]; [lia|].
    assert (Hlt : nth j xs 0 < nth (S j) xs 0) by (apply GridFacts.si_nth_lt; [exact Hs | lia | exact Hi]).
    destruct (GridFacts.interp1d_segment xs ys j (nth (S j) xs 0) Hs Hl Hi) as [v [Ev Hv]].
    + split; [apply Qlt_le_weak; exact Hlt | apply Qle_refl].
    + exists v. split; [exact Ev|]. rewrite Hv. field. intro Hz. lra.
Qed.

Lemma interp1d_nodes_and_bounds_witness :
  Grid.strictly_increasing [0; 1; 3] /\ length [0; 1; 3] = length [5; 7; 2] /\
  le 2%nat (length [0; 1; 3]) /\
  ((forall i, lt i (length [0; 1; 3]) ->
      exists v, interp1d [0; 1; 3] [5; 7; 2] (nth i [0; 1; 3] 0) = Some v /\ v == nth i [5; 7; 2] 0) /\
   (forall t, t < hd 0 [0; 1; 3] \/ last [0; 1; 3] 0 < t -> interp1d [0; 1; 3] [5; 7; 2] t = None)).
Proof.
  split; [cbn; split; [reflexivity | split; [reflexivity | exact I]]|].
  split; [reflexivity|]. split; [cbn; lia|].
  apply interp1d_nodes_and_bounds; [cbn; split; [reflexivity | split; [reflexivity | exact I]] | reflexivity | cbn; lia].
Defined.

(** ** Helper facts: linearity of [trapz], constant integrands *)

Module TrapzFacts.
Import Grid.

Lemma trapz_lin (c : Q) (y3 : list Q) :
  forall y1 y2 x, length y1 = length y3 -> length y2 = length y3 ->
  (forall i, nth i y3 0 == c * nth i y1 0 + nth i y2 0) ->
  trapz y3 x == c * trapz y1 x + trapz y2 x.
Proof.
  induction y3 as [|a y3 IH]; intros y1 y2 x L1 L2 H.
  - destruct y1; [|discriminate]. destruct y2; [|discriminate]. cbn [trapz]. ring.
  - destruct y1 as [|p1 y1]; [discriminate|]. destruct y2 as [|q1 y2]; [discriminate|].
    destruct y3 as [|b y3].
    + destruct y1; [|discriminate]. destruct y2; [|discriminate]. cbn [trapz]. ring.
    + destruct y1 as [|p2 y1]; [discriminate|]. destruct y2 as [|q2 y2]; [discriminate|].
      destruct x as [|x0 [|x1 x]]; [cbn [trapz]; ring | cbn [trapz]; ring|].
      rewrite !QuadFacts.trapz_cons2.
      rewrite (IH (p2 :: y1) (q2 :: y2) (x1 :: x)) by
        (try (cbn in L1, L2 |- *; lia); intros i; exact (H (S i))).
      pose proof (H 0%nat) as H0. pose proof (H 1%nat) as H1. cbn [nth] in H0, H1.
      rewrite H0, H1. field.
Qed.

Lemma nth_map_scale (c : Q) (l : list Q) (i : nat) :
  nth i (map (fun u => c * u) l) 0 == c * nth i l 0.
Proof.
  revert i. induction l as [|a l IH]; intros [|i]; cbn [map nth]; try ring. apply IH.
Qed.

Lemma nth_map_seq_Q (f : nat -> Q) (n i : nat) :
  (n <= i)%nat -> nth i (map f (seq 0 n)) 0 = 0.
Proof. intros H. apply nth_overflow. rewrite length_map, length_seq. exact H. Qed.

Lemma trapz_const (c : Q) (x : list Q) :
  forall y, length y = length x -> Forall (fun v => v = c) y -> x <> [] ->
  trapz y x == c * (last x 0 - hd 0 x).
Proof.
  induction x as [|x0 x IH]; intros y Hl Hy Hne; [congruence|].
  destruct x as [|x1 x].
  - destruct y as [|a [|b y]]; try discriminate. cbn [trapz last hd]. ring.
  - destruct y as [|a [|b y]]; try discriminate.
    inversion Hy as [|? ? Ha Hy']; subst. inversion Hy' as [|? ? Hb _]; subst.
    rewrite QuadFacts.trapz_cons2, (IH (c :: y)) by (try (cbn in Hl |- *; lia); try exact Hy'; discriminate).
    change (last (x0 :: x1 :: x) 0) with (last (x1 :: x) 0). cbn [hd]. field.
Qed.

Lemma npsum_zero (l : list Q) : Forall (fun v => v == 0) l -> npsum l == 0.
Proof. induction 1 as [|v l Hv _ IH]; cbn [npsum]; [reflexivity|]. rewrite Hv, IH. reflexivity. Qed.

End TrapzFacts.

(** X5: with a nonnegative control weight [R] on a strictly increasing
    time grid, [cost(X, U)] is nonnegative, and scaling the control by
    [c] scales the cost by [c^2] (so the zero control costs nothing). *)
Theorem cost_nonneg_quadratic (o : Cost.Opt) (X U : list Q)
    (Hs : Grid.strictly_increasing (Cost.time o)) (HR : 0 <= Cost.R o) :
  0 <= Cost.cost o X U /\
  forall c, Cost.cost o X (map (fun u => c * u) U) == c * c * Cost.cost o X U.
Proof.
  split.
  - unfold Cost.cost. apply QuadFacts.trapz_nonneg; [|exact Hs].
    apply Forall_map, Forall_forall. intros i _. unfold Cost.cost_pointwise.
    assert (E : 1 / 2 * (nth i U 0 * Cost.R o * nth i U 0)
                == (1 # 2) * (Cost.R o * (nth i U 0 * nth i U 0))) by field.
    rewrite E. pose proof (ErgodicFacts.sq_nonneg (nth i U 0)).
    apply Qmult_le_0_compat; [discriminate | apply Qmult_le_0_compat; assumption].
  - intros c. unfold Cost.cost.
    set (n := length (Cost.time o)).
    rewrite (TrapzFacts.trapz_lin (c * c) _
               (map (fun i => Cost.cost_pointwise o (nth i X 0) (nth i U 0)) (seq 0 n))
               (map (fun _ => 0) (seq 0 n)) (Cost.time o));
      [| rewrite !length_map; reflexivity | rewrite !length_map; reflexivity |].
    + rewrite (QuadFacts.trapz_zero (map (fun _ => 0) (seq 0 n)));
        [ring | apply Forall_map, Forall_forall; intros; reflexivity].
    + intros i. destruct (Nat.lt_ge_cases i n) as [Hi|Hi].
      * rewrite !QuadFacts.nth_map_seq by exact Hi. unfold Cost.cost_pointwise.
        rewrite TrapzFacts.nth_map_scale. ring.
      * rewrite !TrapzFacts.nth_map_seq_Q by exact Hi. ring.
Qed.

Lemma cost_nonneg_quadratic_witness :
  Grid.strictly_increasing [0; 1] /\ 0 <= 2 /\
  (0 <= Cost.cost (Cost.mkOpt [0; 1] 2 0 0) [0; 0] [1; 3] /\
   forall c, Cost.cost (Cost.mkOpt [0; 1] 2 0 0) [0; 0] (map (fun u => c * u) [1; 3])
             == c * c * Cost.cost (Cost.mkOpt [0; 1] 2 0 0) [0; 0] [1; 3]).
Proof.
  split; [cbn; split; [reflexivity | exact I]|]. split; [discriminate|].
  apply (cost_nonneg_quadratic (Cost.mkOpt [0; 1] 2 0 0)); [cbn; split; [reflexivity | exact I] | discriminate].
Defined.

(** X6: the directional derivative [dcost] is linear in the direction
    [(dX, dU)]: if the direction is [c] times one direction plus another
    at every grid point, so is its [dcost]. *)
Theorem dcost_linear (time a b dX dU dX1 dU1 dX2 dU2 : list Q) (c : Q)
    (HX : forall i, (i < length time)%nat -> nth i dX 0 == c * nth i dX1 0 + nth i dX2 0)
    (HU : forall i, (i < length time)%nat -> nth i dU 0 == c * nth i dU1 0 + nth i dU2 0) :
  ErgodicGrad.dcost time a b dX dU
  == c * ErgodicGrad.dcost time a b dX1 dU1 + ErgodicGrad.dcost time a b dX2 dU2.
Proof.
  unfold ErgodicGrad.dcost. apply TrapzFacts.trapz_lin; [rewrite !length_map; reflexivity | rewrite !length_map; reflexivity|].
  intros i. destruct (Nat.lt_ge_cases i (length time)) as [Hi|Hi].
  - rewrite !QuadFacts.nth_map_seq by exact Hi. rewrite (HX i Hi), (HU i Hi). ring.
  - rewrite !TrapzFacts.nth_map_seq_Q by exact Hi. ring.
Qed.

Lemma dcost_linear_witness :
  (forall i, (i < length [0; 1])%nat -> nth i [5; 7] 0 == 2 * nth i [2; 3] 0 + nth i [1; 1] 0) /\
  (forall i, (i < length [0; 1])%nat -> nth i [2; 2] 0 == 2 * nth i [1; 1] 0 + nth i [0; 0] 0) /\
  ErgodicGrad.dcost [0; 1] [1; 1] [1; 1] [5; 7] [2; 2]
  == 2 * ErgodicGrad.dcost [0; 1] [1; 1] [1; 1] [2; 3] [1; 1]
     + ErgodicGrad.dcost [0; 1] [1; 1] [1; 1] [1; 1] [0; 0].
Proof.
  assert (HX : forall i, (i < length [0; 1])%nat -> nth i [5; 7] 0 == 2 * nth i [2; 3] 0 + nth i [1; 1] 0).
  { intros [|[|i]] Hi; [reflexivity | reflexivity | cbn in Hi; lia]. }
  assert (HU : forall i, (i < length [0; 1])%nat -> nth i [2; 2] 0 == 2 * nth i [1; 1] 0 + nth i [0; 0] 0).
  { intros [|[|i]] Hi; [reflexivity | reflexivity | cbn in Hi; lia]. }
  split; [exact HX|]. split; [exact HU|].
  exact (dcost_linear [0; 1] [1; 1] [1; 1] [5; 7] [2; 2] [2; 3] [1; 1] [1; 1] [0; 0] 2 HX HU).
Defined.

(** X7: [Dbarrier] is a gradient of the barrier integrand in the sense of
    convexity: for every sample [x] and every [y],
    [barr(y) >= barr(x) + Dbarrier(x) (y - x)]; and an entry of
    [Dbarrier] is zero exactly when the sample lies in the workspace
    [[0, wlimit]]. *)
Theorem Dbarrier_subgradient (xk : list Q) (i : nat) (y : Q) :
  Density.barr_point Grid.wlimit (nth i xk 0)
    + nth i (ErgodicGrad.Dbarrier Grid.wlimit xk) 0 * (y - nth i xk 0)
  <= Density.barr_point Grid.wlimit y /\
  (nth i (ErgodicGrad.Dbarrier Grid.wlimit xk) 0 == 0 <-> 0 <= nth i xk 0 <= Grid.wlimit).
Proof.
  assert (Hn : nth i (ErgodicGrad.Dbarrier Grid.wlimit xk) 0
               = ErgodicGrad.dbarr_point Grid.wlimit (nth i xk 0)).
  { unfold ErgodicGrad.Dbarrier. destruct (Nat.lt_ge_cases i (length xk)) as [Hi|Hi].
    - rewrite (nth_indep _ 0 (ErgodicGrad.dbarr_point Grid.wlimit 0)) by (rewrite length_map; exact Hi).
      apply map_nth.
    - rewrite !nth_overflow by (try rewrite length_map; exact Hi). reflexivity. }
  rewrite Hn. generalize (nth i xk 0) as x. intros x.
  unfold Density.barr_point, ErgodicGrad.dbarr_point, Grid.wlimit. rewrite !ErgodicFacts.sq_unfold.
  split.
  - pose proof (ErgodicFacts.sq_nonneg (y - x)).
    destruct (Qltb x 0) eqn:E1; destruct (Qltb 1 x) eqn:E2; destruct (Qltb 1 y) eqn:E3;
      destruct (Qltb y 0) eqn:E4;
      repeat match goal with
             | H : Qltb _ _ = true |- _ => apply Qltb_true in H
             | H : Qltb _ _ = false |- _ => apply Qltb_false in H
             end;
      try lra; nra.
  - destruct (Qltb x 0) eqn:E1; destruct (Qltb 1 x) eqn:E2;
      repeat match goal with
             | H : Qltb _ _ = true |- _ => apply Qltb_true in H
             | H : Qltb _ _ = false |- _ => apply Qltb_false in H
             end; split; intros; lra.
Qed.

(** ** Helper facts: the terms of [evalcost] *)

Module EvalFacts.
Import Grid.

Lemma cost_nonneg (o : Cost.Opt) (X U : list Q) :
  strictly_increasing (Cost.time o) -> 0 <= Cost.R o -> 0 <= Cost.cost o X U.
Proof.
  intros Hs HR. unfold Cost.cost. apply QuadFacts.trapz_nonneg; [|exact Hs].
  apply Forall_map, Forall_forall. intros i _. unfold Cost.cost_pointwise.
  assert (E : 1 / 2 * (nth i U 0 * Cost.R o * nth i U 0)
              == (1 # 2) * (Cost.R o * (nth i U 0 * nth i U 0))) by field.
  rewrite E. pose proof (ErgodicFacts.sq_nonneg (nth i U 0)).
  apply Qmult_le_0_compat; [discriminate | apply Qmult_le_0_compat; assumption].
Qed.

Lemma barrier_nonneg (time X : list Q) :
  strictly_increasing time -> 0 <= Density.barrier wlimit time X.
Proof.
  intros Hs. unfold Density.barrier. apply QuadFacts.trapz_nonneg; [|exact Hs].
  apply Forall_map, Forall_forall. intros x _. apply BarrierFacts.barr_point_nonneg.
Qed.

Lemma barrier_inside (time X : list Q) :
  Forall (fun x => 0 <= x <= wlimit) X -> Density.barrier wlimit time X == 0.
Proof.
  intros HX. unfold Density.barrier. apply QuadFacts.trapz_zero.
  apply Forall_map. eapply Forall_impl; [|exact HX]. intros x Hx. apply BarrierFacts.barr_point_inside. exact Hx.
Qed.

Lemma dbarr_point_inside (x : Q) : 0 <= x <= wlimit -> ErgodicGrad.dbarr_point wlimit x == 0.
Proof.
  intros Hx. unfold ErgodicGrad.dbarr_point.
  assert (E1 : Qltb x 0 = false) by (apply Qltb_false; lra).
  assert (E2 : Qltb wlimit x = false) by (apply Qltb_false; lra).
  rewrite E1, E2. reflexivity.
Qed.

Lemma akeval_zero (sinf : Q -> Q) (N : nat) (Lambdak ck uk hk klist time X : list Q) :
  (forall k, (k < N)%nat -> nth k ck 0 == nth k uk 0) ->
  Forall (fun a => a == 0) (ErgodicGrad.akeval sinf N Lambdak ck uk hk klist time X).
Proof.
  intros Hck. unfold ErgodicGrad.akeval. destruct N as [|N'].
  - constructor; [reflexivity | constructor].
  - cbv beta zeta. apply Forall_map, Forall_forall. intros x _.
    apply TrapzFacts.npsum_zero. apply Forall_map, Forall_forall. intros k Hk.
    apply in_seq in Hk.
    assert (Hd : nth k ck 0 - nth k uk 0 == 0) by (rewrite (Hck k) by lia; ring).
    rewrite Hd. unfold Qdiv. ring.
Qed.

End EvalFacts.

(** X8: when the trajectory stays in the workspace [[0, wlimit]] and its
    coefficients [ck] equal the target [uk], [akeval] is zero at every
    sample and so is the state gradient
    [dldx = ergcost * ak + barrcost * Dbarrier(X)], which has one entry
    per sample. *)
Theorem dldx_zero_at_target (sinf : Q -> Q) (N : nat) (Lambdak ck uk hk klist time X : list Q)
    (ergcost barrcost : Q)
    (Hck : forall k, (k < N)%nat -> nth k ck 0 == nth k uk 0)
    (HX : Forall (fun x => 0 <= x <= Grid.wlimit) X) :
  Forall (fun a => a == 0) (ErgodicGrad.akeval sinf N Lambdak ck uk hk klist time X) /\
  length (ErgodicGrad.dldx ergcost barrcost Grid.wlimit
            (ErgodicGrad.akeval sinf N Lambdak ck uk hk klist time X) X) = length X /\
  Forall (fun a => a == 0)
    (ErgodicGrad.dldx ergcost barrcost Grid.wlimit
       (ErgodicGrad.akeval sinf N Lambdak ck uk hk klist time X) X).
Proof.
  pose proof (EvalFacts.akeval_zero sinf N Lambdak ck uk hk klist time X Hck) as Hak.
  split; [exact Hak|]. unfold ErgodicGrad.dldx. split; [rewrite length_map, length_seq; reflexivity|].
  apply Forall_map, Forall_forall. intros i Hi. apply in_seq in Hi.
  set (ak := ErgodicGrad.akeval sinf N Lambdak ck uk hk klist time X) in *.
  assert (Ha : nth i ak 0 == 0).
  { destruct (Nat.lt_ge_cases i (length ak)) as [Hl|Hl].
    - apply OdeFacts.Forall_nth_Qeq; assumption.
    - rewrite nth_overflow by exact Hl. reflexivity. }
  assert (Hd : nth i (ErgodicGrad.Dbarrier Grid.wlimit X) 0 == 0).
  { unfold ErgodicGrad.Dbarrier.
    rewrite (nth_indep _ 0 (ErgodicGrad.dbarr_point Grid.wlimit 0)) by (rewrite length_map; lia).
    rewrite map_nth. apply EvalFacts.dbarr_point_inside.
    rewrite Forall_forall in HX. apply HX, nth_In. lia. }
  rewrite Ha, Hd. ring.
Qed.

Lemma dldx_zero_at_target_witness :
  (forall k, (k < 2)%nat -> nth k [1; 2] 0 == nth k [1; 2] 0) /\
  Forall (fun x => 0 <= x <= Grid.wlimit) [0; 1 # 2; 1] /\
  (Forall (fun a => a == 0) (ErgodicGrad.akeval (fun x => x) 2 [1; 1 # 2] [1; 2] [1; 2] [1; 1] [0; 3] [0; 1] [0; 1 # 2; 1]) /\
   length (ErgodicGrad.dldx 5 100 Grid.wlimit
             (ErgodicGrad.akeval (fun x => x) 2 [1; 1 # 2] [1; 2] [1; 2] [1; 1] [0; 3] [0; 1] [0; 1 # 2; 1])
             [0; 1 # 2; 1]) = length [0; 1 # 2; 1] /\
   Forall (fun a => a == 0)
     (ErgodicGrad.dldx 5 100 Grid.wlimit
        (ErgodicGrad.akeval (fun x => x) 2 [1; 1 # 2] [1; 2] [1; 2] [1; 1] [0; 3] [0; 1] [0; 1 # 2; 1])
        [0; 1 # 2; 1])).
Proof.
  assert (Hck : forall k, (k < 2)%nat -> nth k [1; 2] 0 == nth k [1; 2] 0) by (intros; reflexivity).
  assert (HX : Forall (fun x => 0 <= x <= Grid.wlimit) [0; 1 # 2; 1]).
  { repeat constructor; discriminate. }
  split; [exact Hck|]. split; [exact HX|].
  exact (dldx_zero_at_target (fun x => x) 2 [1; 1 # 2] [1; 2] [1; 2] [1; 1] [0; 3] [0; 1] [0; 1 # 2; 1]
           5 100 Hck HX).
Defined.

(** X9: with nonnegative weights [barrcost], [ergcost] and [R] on a
    strictly increasing grid, the total cost [evalcost] is nonnegative;
    for a trajectory inside the workspace whose coefficients [ck] equal
    the target [uk] it reduces to the control cost [cost(X, U)]. *)
Theorem evalcost_nonneg_at_target (o : Cost.Opt) (barrcost ergcost : Q) (N : nat) (ck uk X U : list Q)
    (Hs : Grid.strictly_increasing (Cost.time o)) (HR : 0 <= Cost.R o)
    (Hb : 0 <= barrcost) (He : 0 <= ergcost) (Hc : length ck = N) (Hu : length uk = N) :
  0 <= ErgodicGrad.evalcost o barrcost ergcost Grid.wlimit N ck uk X U /\
  (Forall (fun x => 0 <= x <= Grid.wlimit) X -> arr_eq ck uk ->
   ErgodicGrad.evalcost o barrcost ergcost Grid.wlimit N ck uk X U == Cost.cost o X U).
Proof.
  unfold ErgodicGrad.evalcost, Ergodic.calculate_ergodicity. split.
  - pose proof (EvalFacts.cost_nonneg o X U Hs HR).
    pose proof (EvalFacts.barrier_nonneg (Cost.time o) X Hs).
    pose proof (ErgodicFacts.erg_sum_nonneg (Ergodic.Lambdak N) ck uk (ErgodicFacts.Lambdak_all_pos N)).
    assert (0 <= barrcost * Density.barrier Grid.wlimit (Cost.time o) X) by (apply Qmult_le_0_compat; assumption).
    assert (0 <= ergcost * Ergodic.erg_sum (Ergodic.Lambdak N) ck uk) by (apply Qmult_le_0_compat; assumption).
    lra.
  - intros HX Heq.
    rewrite (EvalFacts.barrier_inside (Cost.time o) X HX).
    rewrite (proj2 (ErgodicFacts.erg_sum_zero_iff (Ergodic.Lambdak N) ck uk (ErgodicFacts.Lambdak_all_pos N)
                      ltac:(rewrite ErgodicFacts.Lambdak_length; exact Hc)
                      ltac:(rewrite ErgodicFacts.Lambdak_length; exact Hu)) Heq).
    ring.
Qed.

Lemma evalcost_nonneg_at_target_witness :
  Grid.strictly_increasing [0; 1] /\ 0 <= 2 /\ 0 <= 100 /\ 0 <= 5 /\
  length [1; 2] = 2%nat /\ length [1; 2] = 2%nat /\
  (0 <= ErgodicGrad.evalcost (Cost.mkOpt [0; 1] 2 0 0) 100 5 Grid.wlimit 2 [1; 2] [1; 2] [0; 1] [1; 1] /\
   (Forall (fun x => 0 <= x <= Grid.wlimit) [0; 1] -> arr_eq [1; 2] [1; 2] ->
    ErgodicGrad.evalcost (Cost.mkOpt [0; 1] 2 0 0) 100 5 Grid.wlimit 2 [1; 2] [1; 2] [0; 1] [1; 1]
    == Cost.cost (Cost.mkOpt [0; 1] 2 0 0) [0; 1] [1; 1])).
Proof.
  split; [cbn; split; [reflexivity | exact I]|].
  split; [discriminate|]. split; [discriminate|]. split; [discriminate|].
  split; [reflexivity|]. split; [reflexivity|].
  apply (evalcost_nonneg_at_target (Cost.mkOpt [0; 1] 2 0 0) 100 5 2 [1; 2] [1; 2] [0; 1] [1; 1]);
    [cbn; split; [reflexivity | exact I] | discriminate | discriminate | discriminate | reflexivity | reflexivity].
Defined.

(** X10: on a time grid starting at 0 with [T = time[-1] <> 0], a
    trajectory that stays at one point [x0] has the coefficients
    [ck[k] = cos(klist[k] x0) / hk[k]]: [ckeval] is the time average of the
    basis function along the trajectory. *)
Theorem ckeval_stationary (cosf : Q -> Q) (N : nat) (hk klist time X : list Q) (x0 : Q) (k : nat)
    (Hk : (k < N)%nat) (Hh : ~ nth k hk 0 == 0) (H0 : hd 0 time == 0) (HT : ~ last time 0 == 0)
    (Hl : length X = length time) (HX : Forall (fun w => w = x0) X) :
  nth k (ErgodicGrad.ckeval cosf N hk klist time X) 0 == cosf (nth k klist 0 * x0) / nth k hk 0.
Proof.
  unfold ErgodicGrad.ckeval. cbv zeta. rewrite QuadFacts.nth_map_seq by exact Hk.
  assert (Hne : time <> []) by (intro E; rewrite E in HT; apply HT; reflexivity).
  rewrite (TrapzFacts.trapz_const (1 / (nth k hk 0 * last time 0) * cosf (nth k klist 0 * x0)) time);
    [| rewrite length_map; exact Hl
     | apply Forall_map; eapply Forall_impl; [|exact HX]; intros w ->; reflexivity
     | exact Hne].
  rewrite H0. field. split; assumption.
Qed.

Lemma ckeval_stationary_witness :
  (0 < 2)%nat /\ ~ nth 0 [2; 3] 0 == 0 /\ hd 0 [0; 1; 2] == 0 /\ ~ last [0; 1; 2] 0 == 0 /\
  length [5; 5; 5] = length [0; 1; 2] /\ Forall (fun w => w = 5) [5; 5; 5] /\
  nth 0 (ErgodicGrad.ckeval (fun x => x) 2 [2; 3] [1; 4] [0; 1; 2] [5; 5; 5]) 0
  == (fun x => x) (nth 0 [1; 4] 0 * 5) / nth 0 [2; 3] 0.
Proof.
  assert (Hh : ~ nth 0 [2; 3] 0 == 0) by discriminate.
  assert (HT : ~ last [0; 1; 2] 0 == 0) by discriminate.
  assert (HX : Forall (fun w => w = 5) [5; 5; 5]) by (repeat constructor).
  split; [lia|]. split; [exact Hh|]. split; [reflexivity|]. split; [exact HT|].
  split; [reflexivity|]. split; [exact HX|].
  exact (ckeval_stationary (fun x => x) 2 [2; 3] [1; 4] [0; 1; 2] [5; 5; 5] 5 0
           ltac:(lia) Hh (Qeq_refl 0) HT eq_refl HX).
Defined.

(** X11: [UpdateDeltaT(dt)] stores [dt], and for [dt > 0] and [tRes > 0]
    the new [maxIter] is the least integer [m] with
    [m * dt * tRes >= maxT]: [maxIter] periods of [dt * tRes] cover [maxT]
    and one period fewer does not; a positive [maxT] needs at least one. *)
Theorem UpdateDeltaT_bounds (maxT dt : Q) (tRes : Z) (Hdt : 0 < dt) (Ht : (0 < tRes)%Z) :
  fst (Params.UpdateDeltaT maxT tRes dt) = dt /\
  maxT <= inject_Z (snd (Params.UpdateDeltaT maxT tRes dt)) * (dt * inject_Z tRes) /\
  inject_Z (snd (Params.UpdateDeltaT maxT tRes dt) - 1) * (dt * inject_Z tRes) < maxT /\
  (0 < maxT -> (1 <= snd (Params.UpdateDeltaT maxT tRes dt))%Z).
Proof.
  unfold Params.UpdateDeltaT; cbn [fst snd].
  assert (HtQ : 0 < inject_Z tRes) by (change 0 with (inject_Z 0); rewrite <- Zlt_Qlt; exact Ht).
  assert (HD : 0 < dt * inject_Z tRes) by (apply Qmult_lt_0_compat; assumption).
  set (D := dt * inject_Z tRes) in *.
  assert (Hid : maxT / D * D == maxT) by (field; intro Hz; rewrite Hz in HD; discriminate).
  pose proof (Qle_ceiling (maxT / D)) as Hc1.
  pose proof (Qceiling_lt (maxT / D)) as Hc2.
  set (m := Qceiling (maxT / D)) in *.
  assert (Hup : maxT <= inject_Z m * D).
  { rewrite <- Hid at 1. apply Qmult_le_compat_r; [exact Hc1 | lra]. }
  split; [reflexivity|]. split; [exact Hup|]. split.
  - rewrite <- Hid. apply Qmult_lt_compat_r; assumption.
  - intros Hpos. destruct (Z_lt_le_dec 0 m) as [Hm|Hm]; [lia|].
    assert (HmQ : inject_Z m <= 0) by (change 0 with (inject_Z 0); rewrite <- Zle_Qle; exact Hm).
    nra.
Qed.

Lemma UpdateDeltaT_bounds_witness :
  0 < 1 # 50 /\ (0 < 101)%Z /\
  (fst (Params.UpdateDeltaT 10 101 (1 # 50)) = 1 # 50 /\
   10 <= inject_Z (snd (Params.UpdateDeltaT 10 101 (1 # 50))) * ((1 # 50) * inject_Z 101) /\
   inject_Z (snd (Params.UpdateDeltaT 10 101 (1 # 50)) - 1) * ((1 # 50) * inject_Z 101) < 10 /\
   (0 < 10 -> (1 <= snd (Params.UpdateDeltaT 10 101 (1 # 50)))%Z)).
Proof.
  split; [reflexivity|]. split; [lia|].
  apply (UpdateDeltaT_bounds 10 (1 # 50) 101); [reflexivity | lia].
Defined.

(** ** Helper facts: the work queue of [SimulationMainQueue] *)

Module MainFacts.
Import Main.

Lemma job_puts_eq {D A W : Type} (env : Env D A) (dat : D) (sp : list (list A)) :
  @job_puts D A W env dat sp =
  if forallb (job_ok env dat) sp then Some (map SimJob sp) else None.
Proof.
  induction sp as [|p sp IH]; [reflexivity|]. cbn [job_puts forallb map].
  destruct (job_ok env dat p); cbn [negb andb]; [|reflexivity].
  rewrite IH. destruct (forallb (job_ok env dat) sp); reflexivity.
Qed.

Lemma trial_puts_eq {D A W : Type} (env : Env D A) (trials : list (D * list (list A))) :
  @trial_puts D A W env trials =
  if forallb (fun dP => saveDir_ok env (fst dP) && forallb (job_ok env (fst dP)) (snd dP)) trials
  then Some (map SimJob (concat (map snd trials))) else None.
Proof.
  induction trials as [|[dat sp] trials IH]; [reflexivity|].
  cbn [trial_puts forallb fst snd map concat]. rewrite job_puts_eq, IH.
  destruct (saveDir_ok env dat); cbn [negb andb]; [|reflexivity].
  destruct (forallb (job_ok env dat) sp); cbn [andb]; [|reflexivity].
  destruct (forallb _ trials); [|reflexivity]. rewrite map_app. reflexivity.
Qed.

Lemma map_opt_length {B C : Type} (f : B -> option C) (l : list B) :
  forall r, map_opt f l = Some r -> length r = length l.
Proof.
  induction l as [|x l IH]; intros r E; cbn in E.
  - injection E as <-. reflexivity.
  - destruct (f x), (map_opt f l) as [r'|] eqn:E'; try discriminate.
    injection E as <-. cbn. f_equal. apply IH. reflexivity.
Qed.

Lemma map_snd_combine {B C : Type} (l : list B) (m : list C) :
  length l = length m -> map snd (combine l m) = m.
Proof.
  revert m. induction l as [|x l IH]; intros [|y m] E; try discriminate; [reflexivity|].
  cbn. f_equal. apply IH. cbn in E. lia.
Qed.

Lemma min_if (a b : nat) : (if Nat.ltb b a then b else a) = Nat.min a b.
Proof. destruct (Nat.ltb_spec b a); lia. Qed.

End MainFacts.

(** X12: [SimulationMainQueue] fails when loading a data file fails.
    Once the files are loaded, it fails exactly when opening
    [SimJobList.txt], getting the fork context, creating the pool and
    its workers, preparing a save folder or setting a job's parameters
    fails, or when [nThread = 0] or the data files give no job ([Pool]
    of zero processes).  Otherwise the pool has [min(nThread,
    nTotalJobs)] processes, the queue bound is [min(2 * nThread,
    nTotalJobs)], and the items put on the queue are the parameter tuples
    of [product] of every file, in file order, one per job, and no
    attenuation job. *)
Theorem SimulationMainQueue_plan {D A W : Type} (env : Main.Env D A) (files : list D) (nThread : nat) :
  match map_opt (Main.loadParams env) files with
  | None => @Main.SimulationMainQueue D A W env files nThread = None
  | Some ps =>
      (@Main.SimulationMainQueue D A W env files nThread = None <->
       Main.joblist_opens env = false \/ Main.fork_ok env = false \/
       nThread = 0%nat \/ list_sum (map (fun P => length (Main.product P)) ps) = 0%nat \/
       Main.processes_ok env = false \/
       forallb (fun dP => Main.saveDir_ok env (fst dP) &&
                          forallb (Main.job_ok env (fst dP)) (Main.product (snd dP)))
               (combine files ps) = false) /\
      (forall n q puts, @Main.SimulationMainQueue D A W env files nThread = Some (n, q, puts) ->
       n = Nat.min nThread (list_sum (map (fun P => length (Main.product P)) ps)) /\
       q = Nat.min (2 * n) (list_sum (map (fun P => length (Main.product P)) ps)) /\
       puts = map Main.SimJob (flat_map Main.product ps) /\
       length puts = list_sum (map (fun P => length (Main.product P)) ps))
  end.
Proof.
  unfold Main.SimulationMainQueue.
  destruct (map_opt (Main.loadParams env) files) as [ps|] eqn:Eps; [|reflexivity].
  cbv zeta. rewrite MainFacts.trial_puts_eq.
  assert (Hlen : length files = length (map Main.product ps))
    by (rewrite length_map; symmetry; exact (MainFacts.map_opt_length _ _ _ Eps)).
  rewrite (MainFacts.map_snd_combine _ _ Hlen).
  change (length (@nil W)) with 0%nat. cbn [map]. rewrite Nat.add_0_r, map_map, MainFacts.min_if.
  set (t := list_sum (map (fun x => length (Main.product x)) ps)).
  set (b := forallb (fun dP => Main.saveDir_ok env (fst dP) &&
                               forallb (Main.job_ok env (fst dP)) (snd dP))
                    (combine files (map Main.product ps))).
  assert (Eb : b = forallb (fun dP => Main.saveDir_ok env (fst dP) &&
                                      forallb (Main.job_ok env (fst dP)) (Main.product (snd dP)))
                           (combine files ps)).
  { unfold b. clear - Hlen. rewrite length_map in Hlen. revert ps Hlen.
    induction files as [|d files IH]; intros [|P ps] Hl; try discriminate; [reflexivity|].
    cbn. f_equal. apply IH. cbn in Hl. lia. }
  rewrite <- Eb.
  destruct (Main.joblist_opens env); cbn [negb];
    [| split; [split; [intros _; left; reflexivity | reflexivity] | intros n q puts Hc; discriminate]].
  destruct (Main.fork_ok env); cbn [negb];
    [| split; [split; [intros _; right; left; reflexivity | reflexivity] | intros n q puts Hc; discriminate]].
  destruct (Nat.ltb_spec (Nat.min nThread t) 1) as [Hlt|Hge].
  - split; [split; [intros _; right; right; lia | reflexivity]|]. intros n q puts Hc. discriminate.
  - destruct (Main.processes_ok env); cbn [negb];
      [| split; [split; [intros _; right; right; right; right; left; reflexivity | reflexivity]
                | intros n q puts Hc; discriminate]].
    destruct b.
    + split; [split; [discriminate | intros [H|[H|[H|[H|[H|H]]]]]; try discriminate; lia]|].
      intros n q puts Hc. injection Hc as <- <- <-. rewrite app_nil_r.
      split; [reflexivity|]. split; [reflexivity|].
      split; [rewrite flat_map_concat_map; reflexivity|].
      rewrite length_map, length_concat, map_map. reflexivity.
    + split; [split; [intros _; right; right; right; right; right; reflexivity | reflexivity]|].
      intros n q puts Hc. discriminate.
Qed.

Lemma SimulationMainQueue_plan_witness :
  @Main.SimulationMainQueue nat nat nat {| Main.loadParams := fun d => Some (if Nat.eqb d 0 then [[1; 2]; [3]] else [[4]]);
        Main.joblist_opens := true; Main.fork_ok := true; Main.processes_ok := true;
        Main.saveDir_ok := fun _ => true; Main.job_ok := fun d _ => Nat.eqb d 0 |}%nat [0]%nat 4 =
    Some (2%nat, 2%nat, [Main.SimJob [1; 3]%nat; Main.SimJob [2; 3]%nat]) /\
  @Main.SimulationMainQueue nat nat nat {| Main.loadParams := fun d => Some (if Nat.eqb d 0 then [[1; 2]; [3]] else [[4]]);
        Main.joblist_opens := true; Main.fork_ok := true; Main.processes_ok := true;
        Main.saveDir_ok := fun _ => true; Main.job_ok := fun d _ => Nat.eqb d 0 |}%nat [0; 1]%nat 4 = None /\
  (2 = Nat.min 4 (list_sum (map (fun P => length (Main.product P)) [[[1; 2]; [3]]]%nat)) /\
   2 = Nat.min (2 * 2) (list_sum (map (fun P => length (Main.product P)) [[[1; 2]; [3]]]%nat)) /\
   [Main.SimJob [1; 3]%nat; Main.SimJob [2; 3]%nat] =
     map (@Main.SimJob nat nat) (flat_map Main.product [[[1; 2]; [3]]]%nat) /\
   length [@Main.SimJob nat nat [1; 3]%nat; Main.SimJob [2; 3]%nat] =
     list_sum (map (fun P => length (Main.product P)) [[[1; 2]; [3]]]%nat))%nat.
Proof.
  assert (E : @Main.SimulationMainQueue nat nat nat {| Main.loadParams := fun d => Some (if Nat.eqb d 0 then [[1; 2]; [3]] else [[4]]);
        Main.joblist_opens := true; Main.fork_ok := true; Main.processes_ok := true;
        Main.saveDir_ok := fun _ => true; Main.job_ok := fun d _ => Nat.eqb d 0 |}%nat [0]%nat 4 =
                Some (2%nat, 2%nat, [Main.SimJob [1; 3]%nat; Main.SimJob [2; 3]%nat])) by reflexivity.
  split; [exact E|]. split; [reflexivity|].
  exact (proj2 (@SimulationMainQueue_plan nat nat nat {| Main.loadParams := fun d => Some (if Nat.eqb d 0 then [[1; 2]; [3]] else [[4]]);
        Main.joblist_opens := true; Main.fork_ok := true; Main.processes_ok := true;
        Main.saveDir_ok := fun _ => true; Main.job_ok := fun d _ => Nat.eqb d 0 |}%nat [0]%nat 4) _ _ _ E).
Defined.

(** X13: [product] (itertools.product) lists exactly the tuples whose
    i-th entry is taken from the i-th list, and it has as many tuples as
    the product of the lists' lengths. *)
Theorem product_spec {A : Type} (ls : list (list A)) (c : list A) :
  (In c (Main.product ls) <-> Forall2 (fun x l => In x l) c ls) /\
  length (Main.product ls) = fold_right (fun l n => (length l * n)%nat) 1%nat ls.
Proof.
  revert c. induction ls as [|l ls IH]; intros c.
  - cbn. split; [|reflexivity]. split.
    + intros [<- | []]. constructor.
    + intros H. inversion H; subst. left; reflexivity.
  - cbn [Main.product fold_right]. split.
    + rewrite in_flat_map. split.
      * intros [x [Hx Hc]]. apply in_map_iff in Hc. destruct Hc as [y [<- Hy]].
        constructor; [exact Hx | apply (proj1 (IH y)); exact Hy].
      * intros H. inversion H as [|x l' y ls' Hx Hy]; subst.
        exists x. split; [exact Hx|]. apply in_map. apply (proj1 (IH y)). exact Hy.
    + rewrite <- (proj2 (IH c)). clear IH. induction l as [|x l IHl]; [reflexivity|].
      cbn [flat_map]. rewrite length_app, length_map, IHl. cbn [length]. lia.
Qed.


(** ** Helper facts: when [normalize] fails *)

Module NormalizeFailFacts.

Lemma npmax_none (l : list Q) : npmax l = None -> l = [].
Proof. destruct l as [|x l]; [reflexivity|]. cbn [npmax]. destruct (npmax l); discriminate. Qed.

Lemma npmax_in (l : list Q) (m : Q) : npmax l = Some m -> In m l.
Proof.
  revert m. induction l as [|x l IH]; intros m H; [discriminate|].
  cbn [npmax] in H. destruct (npmax l) as [m'|] eqn:E.
  - destruct (Qle_bool x m'); injection H as <-; [right; apply IH; reflexivity | left; reflexivity].
  - injection H as <-. left; reflexivity.
Qed.

Lemma npsum_nonpos (l : list Q) : Forall (fun x => x <= 0) l -> npsum l <= 0.
Proof. induction 1; cbn [npsum]; lra. Qed.

Lemma npsum_nonpos_zero (l : list Q) :
  Forall (fun x => x <= 0) l -> npsum l == 0 -> Forall (fun x => x == 0) l.
Proof.
  induction 1 as [|x l Hx Hl IH]; intros Hs; [constructor|].
  cbn [npsum] in Hs. pose proof (npsum_nonpos l Hl).
  constructor; [lra | apply IH; lra].
Qed.

Lemma npsum_const (l : list Q) (c : Q) :
  Forall (fun x => x == c) l -> npsum l == inject_Z (Z.of_nat (length l)) * c.
Proof.
  induction 1 as [|x l Hx Hl IH]; cbn [npsum length]; [reflexivity|].
  rewrite Nat2Z.inj_succ, <- Z.add_1_r, inject_Z_plus, Hx, IH.
  change (inject_Z 1) with 1. ring.
Qed.

Lemma npmean_const (l : list Q) (c : Q) :
  l <> [] -> Forall (fun x => x == c) l -> npmean l == c.
Proof.
  intros Hne H. pose proof (NormalizeFacts.len_pos l Hne).
  unfold npmean. rewrite (npsum_const l c H). field. lra.
Qed.

End NormalizeFailFacts.

(** X14: [normalize(s, t, mid, gain)] fails (an empty [s], [gain = 0], or
    a zero scale [np.max(s - mean(s)) / gain]) exactly when [s] is empty,
    [gain] is zero, or all samples of [s] are equal; the target series [t]
    plays no part. *)
Theorem normalize_fails_iff (s t : list Q) (mid gain : Q) :
  Normalize.normalize s t mid gain = None <->
  s = [] \/ gain == 0 \/ Forall (fun x => x == hd 0 s) s.
Proof.
  unfold Normalize.normalize. cbv zeta.
  destruct (npmax (map (fun x => x - npmean s) s)) as [M|] eqn:HM.
  2: { apply NormalizeFailFacts.npmax_none in HM. destruct s; [|discriminate].
       split; [intros _; left; reflexivity | reflexivity]. }
  assert (Hs : s <> []) by (intro E; subst s; discriminate).
  assert (Hhd : In (hd 0 s) s) by (destruct s; [contradiction | left; reflexivity]).
  destruct (Qeq_bool gain 0) eqn:E1.
  { apply Qeq_bool_iff in E1. split; [intros _; right; left; exact E1 | reflexivity]. }
  assert (Hg : ~ gain == 0) by (intro Hg; apply Qeq_bool_iff in Hg; congruence).
  destruct (Qeq_bool (M * / gain) 0) eqn:E2.
  - split; [intros _ | reflexivity]. right; right.
    apply Qeq_bool_iff in E2.
    assert (HM0 : M == 0).
    { assert (E : M == M * / gain * gain) by (field; exact Hg).
      rewrite E, E2. ring. }
    pose proof (NormalizeFacts.npmax_bound _ _ HM) as Hb.
    assert (Hb0 : Forall (fun x => x <= 0) (map (fun x => x - npmean s) s)).
    { eapply Forall_impl; [|exact Hb]. intros x Hx. cbv beta in *. lra. }
    pose proof (NormalizeFailFacts.npsum_nonpos_zero _ Hb0 (NormalizeFacts.deviations_sum_zero s Hs)) as Hz.
    apply Forall_map in Hz. rewrite Forall_forall in Hz.
    assert (Hm : hd 0 s == npmean s) by (pose proof (Hz _ Hhd); cbv beta in *; lra).
    apply Forall_forall. intros x Hx. pose proof (Hz x Hx). cbv beta in *. lra.
  - split; [discriminate|]. intros [E | [E | Hc]]; [contradiction | contradiction|].
    exfalso. apply NormalizeFailFacts.npmax_in, in_map_iff in HM. destruct HM as [x [Hx Hin]].
    pose proof (NormalizeFailFacts.npmean_const s (hd 0 s) Hs Hc) as Hm.
    rewrite Forall_forall in Hc. pose proof (Hc x Hin) as Hxc.
    assert (HM0 : M == 0) by (rewrite <- Hx; lra).
    assert (Qeq_bool (M * / gain) 0 = true) by (apply Qeq_bool_iff; rewrite HM0; ring).
    congruence.
Qed.

(** ** Helper facts: [descentdirection] on a stationary linearisation *)

Module DescentFacts.
Import Ode.

Section FixedAt.

Variable f : Q -> Q -> option Q.
Variable c : Q.
Hypothesis Hf : forall t y, y == c -> exists v, f t y = Some v /\ v == 0.

Lemma rk23_step_fixed_at (t h y : Q) :
  y == c -> exists y', rk23_step f t h y = Some y' /\ y' == c.
Proof.
  intros Hy. unfold rk23_step, rk_stages.
  destruct (Hf t y Hy) as [k1 [E1 H1]]. rewrite E1.
  assert (Hy2 : y + h / 2 * k1 == c) by (rewrite H1, Hy; ring).
  destruct (Hf (t + h / 2) _ Hy2) as [k2 [E2 H2]]. rewrite E2.
  assert (Hy3 : y + 3 / 4 * h * k2 == c) by (rewrite H2, Hy; ring).
  destruct (Hf (t + 3 / 4 * h) _ Hy3) as [k3 [E3 H3]]. rewrite E3. cbv zeta.
  assert (Hy4 : Qred (y + h * (2 / 9 * k1 + 1 / 3 * k2 + 4 / 9 * k3)) == c)
    by (rewrite Qred_correct, Hy, H1, H2, H3; ring).
  destruct (Hf (t + h) _ Hy4) as [k4 [E4 H4]]. rewrite E4.
  eexists; split; [reflexivity | exact Hy4].
Qed.

Lemma integrate_from_fixed_at (ts : list Q) :
  forall t y, y == c ->
  exists ys, integrate_from f t y ts = Some ys /\ Forall (fun p => p == c) ys /\
             length ys = length ts.
Proof.
  induction ts as [|t' ts IH]; intros t y Hy.
  - exists []. repeat split; constructor.
  - cbn [integrate_from]. destruct (rk23_step_fixed_at t (t' - t) y Hy) as [y' [E Hy']].
    rewrite E. destruct (IH t' y' Hy') as [ys [E' [Hall Hl]]]. rewrite E'.
    exists (y' :: ys). repeat split; [constructor; assumption | cbn; lia].
Qed.

Lemma odeIntegrator_fixed_at (time : list Q) (y0 : Q) :
  time <> [] -> y0 == c ->
  exists ys, odeIntegrator time f y0 = Some ys /\ Forall (fun p => p == c) ys /\
             length ys = length time.
Proof.
  intros Hne Hy. unfold odeIntegrator. destruct time as [|t0 ts]; [congruence|].
  destruct (integrate_from_fixed_at ts t0 y0 Hy) as [ys [E [Hall Hl]]]. rewrite E.
  exists (y0 :: ys). repeat split; [constructor; assumption | cbn; lia].
Qed.

End FixedAt.

Lemma hd_le_last (l : list Q) : Grid.strictly_increasing l -> l <> [] -> hd 0 l <= last l 0.
Proof.
  intros Hs Hne. rewrite GridFacts.hd_nth, GridFacts.last_nth by exact Hne.
  apply GridFacts.si_nth_le; [exact Hs | lia |].
  destruct l; [congruence | cbn; lia].
Qed.

Lemma in_range (time : list Q) (t : Q) :
  out_of_range time t = false -> hd 0 time <= t /\ t <= last time 0.
Proof.
  unfold out_of_range, t_first, t_last. intros Hr.
  apply Bool.orb_false_iff in Hr as [Hhi Hlo].
  apply Qltb_false in Hhi. apply Qltb_false in Hlo. split; assumption.
Qed.

Lemma descent_zero (time a b : list Q)
    (H2 : (2 <= length time)%nat) (Hs : Grid.strictly_increasing time) (H0 : hd 0 time == 0)
    (Ha : Forall (fun x => x == 0) a) (Hb : Forall (fun x => x == 0) b)
    (Hla : length a = length time) (Hlb : length b = length time) :
  exists z v, Descent.descentdirection time a b = Some (z, v) /\
              length z = length time /\ length v = length time /\
              Forall (fun x => x == 0) z /\ Forall (fun x => x == 0) v.
Proof.
  assert (Hne : time <> []) by (destruct time; [cbn in H2; lia | discriminate]).
  pose proof (DescentFacts.hd_le_last time Hs Hne) as Hhl.
  assert (Hc : forall c ys t, Forall (fun x => x == c) ys -> length ys = length time ->
                hd 0 time <= t -> t <= last time 0 ->
                exists v, interp1d time ys t = Some v /\ v == c).
  { intros c ys t Hys Hl Hlo Hhi. apply OdeFacts.interp1d_const; auto. }
  assert (HA : forall t, hd 0 time <= t -> t <= last time 0 ->
                exists v, Ode.A_interp time t = Some v /\ v == 0).
  { intros t Hlo Hhi. apply Hc; [apply OdeFacts.Forall_map_const | unfold Ode.A_current; apply length_map | exact Hlo | exact Hhi]. }
  assert (HB : forall t, hd 0 time <= t -> t <= last time 0 ->
                exists v, Ode.B_interp time t = Some v /\ v == 1).
  { intros t Hlo Hhi. apply Hc; [apply OdeFacts.Forall_map_const | unfold Ode.B_current; apply length_map | exact Hlo | exact Hhi]. }
  unfold Descent.descentdirection. cbv zeta.
  (* [Psol]: the constant 1 *)
  destruct (OdeFacts.odeIntegrator_fixed
              (fun t y => Ode.peqns time t y (Ode.A_interp time) (Ode.B_interp time) Ode.Rn Ode.Qn)
              (fun t y Hy => OdeFacts.peqns_at_one time t y H2 Hy) time 1 Hne (Qeq_refl 1))
    as [Ps [EP [HPs HlP]]].
  unfold Ode.Psol. rewrite EP.
  assert (HP : forall t, hd 0 time <= t -> t <= last time 0 ->
                exists v, interp1d time Ps t = Some v /\ v == 1) by (intros; apply Hc; auto).
  (* [Rsol]: the constant 0 *)
  destruct (DescentFacts.odeIntegrator_fixed_at
              (fun t y => Ode.reqns time t y (Ode.A_interp time) (Ode.B_interp time)
                            (interp1d time a) (interp1d time b) (interp1d time Ps) Ode.Rn Ode.Qn)
              0) with (time := time) (y0 := 0) as [rs [ER [Hrs Hlr]]];
    [| exact Hne | reflexivity |].
  { intros t y Hy. unfold Ode.reqns. destruct (Ode.out_of_range time t) eqn:Hr; [exists 0; split; reflexivity|].
    apply DescentFacts.in_range in Hr as [Hlo Hhi].
    unfold Ode.t_last. set (t' := last time 0 - t).
    assert (Hlo' : hd 0 time <= t') by (unfold t'; lra).
    assert (Hhi' : t' <= last time 0) by (unfold t'; lra).
    destruct (HA t' Hlo' Hhi') as [av [EA HAv]]. destruct (HB t' Hlo' Hhi') as [bv [EB HBv]].
    destruct (HP t' Hlo' Hhi') as [pv [EP' HPv]].
    destruct (Hc 0 a t' Ha Hla Hlo' Hhi') as [aa [Ea Haa]].
    destruct (Hc 0 b t' Hb Hlb Hlo' Hhi') as [bb [Eb Hbb]].
    rewrite EA, EB, EP', Ea, Eb. eexists; split; [reflexivity|].
    rewrite Hy, Haa, Hbb. ring. }
  unfold Ode.Rsol. rewrite ER.
  set (Rs := rev rs).
  assert (HRs : Forall (fun x => x == 0) Rs) by (apply Forall_rev; exact Hrs).
  assert (HlR : length Rs = length time) by (unfold Rs; rewrite length_rev; exact Hlr).
  assert (Hlo0 : hd 0 time <= 0) by lra.
  assert (Hhi0 : 0 <= last time 0) by lra.
  destruct (HP 0 Hlo0 Hhi0) as [p0 [Ep0 Hp0]]. rewrite Ep0.
  destruct (Hc 0 Rs 0 HRs HlR Hlo0 Hhi0) as [r0 [Er0 Hr0]]. rewrite Er0.
  assert (Ep0b : Qeq_bool p0 0 = false).
  { destruct (Qeq_bool p0 0) eqn:E; [apply Qeq_bool_iff in E; lra | reflexivity]. }
  rewrite Ep0b.
  (* [z]: the constant 0 *)
  destruct (DescentFacts.odeIntegrator_fixed_at
              (fun t y => Ode.zeqns time t y (Ode.A_interp time) (Ode.B_interp time)
                            (interp1d time a) (interp1d time b) (interp1d time Ps) (interp1d time Rs)
                            Ode.Rn Ode.Qn)
              0) with (time := time) (y0 := - (/ p0 * r0)) as [z [EZ [Hz Hlz]]];
    [| exact Hne | rewrite Hr0; ring |].
  { intros t y Hy. unfold Ode.zeqns. destruct (Ode.out_of_range time t) eqn:Hr; [exists 0; split; reflexivity|].
    apply DescentFacts.in_range in Hr as [Hlo Hhi].
    destruct (HA t Hlo Hhi) as [av [EA HAv]]. destruct (HB t Hlo Hhi) as [bv [EB HBv]].
    destruct (Hc 0 a t Ha Hla Hlo Hhi) as [aa [Ea Haa]].
    destruct (Hc 0 b t Hb Hlb Hlo Hhi) as [bb [Eb Hbb]].
    destruct (HP t Hlo Hhi) as [pv [EP' HPv]].
    destruct (Hc 0 Rs t HRs HlR Hlo Hhi) as [rv [ERv HRv]].
    rewrite EA, EB, Ea, Eb, EP', ERv. eexists; split; [reflexivity|].
    unfold Ode.veqns. rewrite Hy, HAv, HBv, HPv, HRv, Hbb. ring. }
  rewrite EZ.
  eexists; eexists; split; [reflexivity|].
  split; [exact Hlz|]. split; [rewrite length_map, length_seq; reflexivity|].
  split; [exact Hz|].
  apply Forall_map, Forall_forall. intros i Hi. apply in_seq in Hi.
  unfold Ode.veqns.
  rewrite (OdeFacts.Forall_nth_Qeq z 0 i Hz) by lia.
  rewrite (OdeFacts.Forall_nth_Qeq Rs 0 i HRs) by lia.
  rewrite (OdeFacts.Forall_nth_Qeq b 0 i Hb) by lia.
  ring.
Qed.

End DescentFacts.

(** X15: on a strictly increasing grid starting at 0 with at least two
    points, when the linearised costs [a_current] and [b_current] are zero
    at every grid point, [descentdirection] succeeds and returns the zero
    direction: every sample of [zsoln] and of [vsoln] is 0. *)
Theorem descentdirection_zero_at_stationary (time a b : list Q)
    (H2 : (2 <= length time)%nat) (Hs : Grid.strictly_increasing time) (H0 : hd 0 time == 0)
    (Ha : Forall (fun x => x == 0) a) (Hb : Forall (fun x => x == 0) b)
    (Hla : length a = length time) (Hlb : length b = length time) :
  exists z v, Descent.descentdirection time a b = Some (z, v) /\
              length z = length time /\ length v = length time /\
              Forall (fun x => x == 0) z /\ Forall (fun x => x == 0) v.
Proof.
  exact (DescentFacts.descent_zero time a b H2 Hs H0 Ha Hb Hla Hlb).
Qed.

Lemma descentdirection_zero_at_stationary_witness :
  le 2 (length ([0; 1 # 2; 1] : list Q)) /\ Grid.strictly_increasing [0; 1 # 2; 1] /\
  hd 0 [0; 1 # 2; 1] == 0 /\
  Forall (fun x => x == 0) [0; 0; 0] /\ Forall (fun x => x == 0) [0; 0; 0] /\
  length ([0; 0; 0] : list Q) = length ([0; 1 # 2; 1] : list Q) /\
  length ([0; 0; 0] : list Q) = length ([0; 1 # 2; 1] : list Q) /\
  exists z v, Descent.descentdirection [0; 1 # 2; 1] [0; 0; 0] [0; 0; 0] = Some (z, v) /\
              length z = length ([0; 1 # 2; 1] : list Q) /\ length v = length ([0; 1 # 2; 1] : list Q) /\
              Forall (fun x => x == 0) z /\ Forall (fun x => x == 0) v.
Proof.
  assert (H2 : le 2 (length ([0; 1 # 2; 1] : list Q))) by (cbn; lia).
  assert (Hs : Grid.strictly_increasing [0; 1 # 2; 1]) by (cbn; repeat split; reflexivity).
  assert (Hz : Forall (fun x => x == 0) [0; 0; 0]) by (repeat constructor).
  split; [exact H2|]. split; [exact Hs|]. split; [reflexivity|].
  split; [exact Hz|]. split; [exact Hz|]. split; [reflexivity|]. split; [reflexivity|].
  exact (descentdirection_zero_at_stationary [0; 1 # 2; 1] [0; 0; 0] [0; 0; 0]
           H2 Hs (Qeq_refl 0) Hz Hz eq_refl eq_refl).
Defined.

(** ** Helper facts: the linearisation of [update_traj] *)

Module UpdateFacts.

Lemma dldx_zero (ergcost barrcost : Q) (ak X : list Q) :
  Forall (fun a => a == 0) ak -> Forall (fun x => 0 <= x <= Grid.wlimit) X ->
  Forall (fun a => a == 0) (ErgodicGrad.dldx ergcost barrcost Grid.wlimit ak X).
Proof.
  intros Hak HX. unfold ErgodicGrad.dldx.
  apply Forall_map, Forall_forall. intros i Hi. apply in_seq in Hi.
  assert (Ha : nth i ak 0 == 0).
  { destruct (Nat.lt_ge_cases i (length ak)) as [Hl|Hl].
    - apply OdeFacts.Forall_nth_Qeq; assumption.
    - rewrite nth_overflow by exact Hl. reflexivity. }
  assert (Hd : nth i (ErgodicGrad.Dbarrier Grid.wlimit X) 0 == 0).
  { unfold ErgodicGrad.Dbarrier.
    rewrite (nth_indep _ 0 (ErgodicGrad.dbarr_point Grid.wlimit 0)) by (rewrite length_map; lia).
    rewrite map_nth. apply EvalFacts.dbarr_point_inside.
    rewrite Forall_forall in HX. apply HX, nth_In. lia. }
  rewrite Ha, Hd. ring.
Qed.

Lemma dldu_zero (o : Cost.Opt) (X U : list Q) :
  Forall (fun u => u == 0) U -> Cost.uinit o * Cost.Quinit o == 0 ->
  Forall (fun b => b == 0) (Cost.dldu o X U).
Proof.
  intros HU Hi. unfold Cost.dldu.
  apply Forall_map, Forall_forall. intros i _.
  assert (Hu : nth i U 0 == 0).
  { destruct (Nat.lt_ge_cases i (length U)) as [Hl|Hl].
    - apply OdeFacts.Forall_nth_Qeq; assumption.
    - rewrite nth_overflow by exact Hl. reflexivity. }
  rewrite Hu. destruct (Nat.eqb i 0); [rewrite Hi|]; ring.
Qed.

End UpdateFacts.

(** X16: on a strictly increasing grid starting at 0, take a trajectory
    [X] inside the workspace whose coefficients [ckeval(X)] equal the
    target [uk] (for every [k < Nfourier]), and the zero control with
    [uinit * Quinit = 0].  Then the linearisation built by [update_traj]
    is zero, and [descentdirection] on it returns the zero direction: the
    optimiser has no step to take. *)
Theorem update_traj_descent_zero (o : Cost.Opt) (cosf sinf : Q -> Q) (N : nat)
    (Lambdak uk hk klist : list Q) (ergcost barrcost : Q) (X U : list Q)
    (H2 : (2 <= length (Cost.time o))%nat) (Hs : Grid.strictly_increasing (Cost.time o))
    (H0 : hd 0 (Cost.time o) == 0)
    (Hck : forall k, (k < N)%nat ->
           nth k (ErgodicGrad.ckeval cosf N hk klist (Cost.time o) X) 0 == nth k uk 0)
    (HX : Forall (fun x => 0 <= x <= Grid.wlimit) X) (HlX : length X = length (Cost.time o))
    (HU : Forall (fun u => u == 0) U) (Hui : Cost.uinit o * Cost.Quinit o == 0) :
  let '(ck, a, b) := Update.update_traj o cosf sinf N Lambdak uk hk klist ergcost barrcost X U in
  Forall (fun x => x == 0) a /\ Forall (fun x => x == 0) b /\
  exists z v, Descent.descentdirection (Cost.time o) a b = Some (z, v) /\
              Forall (fun x => x == 0) z /\ Forall (fun x => x == 0) v.
Proof.
  unfold Update.update_traj. cbv zeta.
  set (ck := ErgodicGrad.ckeval cosf N hk klist (Cost.time o) X) in *.
  pose proof (EvalFacts.akeval_zero sinf N Lambdak ck uk hk klist (Cost.time o) X Hck) as Hak.
  pose proof (UpdateFacts.dldx_zero ergcost barrcost _ X Hak HX) as Ha.
  pose proof (UpdateFacts.dldu_zero o X U HU Hui) as Hb.
  split; [exact Ha|]. split; [exact Hb|].
  destruct (DescentFacts.descent_zero (Cost.time o) _ _ H2 Hs H0 Ha Hb) as [z [v [E [_ [_ [Hz Hv]]]]]].
  - unfold ErgodicGrad.dldx. rewrite length_map, length_seq. exact HlX.
  - unfold Cost.dldu. rewrite length_map, length_seq. reflexivity.
  - exists z, v. split; [exact E|]. split; assumption.
Qed.

Lemma update_traj_descent_zero_witness :
  le 2 (length (Cost.time (Cost.mkOpt [0; 1 # 2; 1] 1 0 0))) /\
  Grid.strictly_increasing (Cost.time (Cost.mkOpt [0; 1 # 2; 1] 1 0 0)) /\
  hd 0 (Cost.time (Cost.mkOpt [0; 1 # 2; 1] 1 0 0)) == 0 /\
  (forall k, (k < 1)%nat ->
     nth k (ErgodicGrad.ckeval (fun x => x) 1 [1] [1] (Cost.time (Cost.mkOpt [0; 1 # 2; 1] 1 0 0))
              [1 # 2; 1 # 2; 1 # 2]) 0 == nth k [1 # 2] 0) /\
  Forall (fun x => 0 <= x <= Grid.wlimit) [1 # 2; 1 # 2; 1 # 2] /\
  length ([1 # 2; 1 # 2; 1 # 2] : list Q) = length (Cost.time (Cost.mkOpt [0; 1 # 2; 1] 1 0 0)) /\
  Forall (fun u => u == 0) [0; 0; 0] /\
  Cost.uinit (Cost.mkOpt [0; 1 # 2; 1] 1 0 0) * Cost.Quinit (Cost.mkOpt [0; 1 # 2; 1] 1 0 0) == 0 /\
  let '(ck, a, b) := Update.update_traj (Cost.mkOpt [0; 1 # 2; 1] 1 0 0) (fun x => x) (fun x => x) 1
                       [1] [1 # 2] [1] [1] 5 100 [1 # 2; 1 # 2; 1 # 2] [0; 0; 0] in
  Forall (fun x => x == 0) a /\ Forall (fun x => x == 0) b /\
  exists z v, Descent.descentdirection (Cost.time (Cost.mkOpt [0; 1 # 2; 1] 1 0 0)) a b = Some (z, v) /\
              Forall (fun x => x == 0) z /\ Forall (fun x => x == 0) v.
Proof.
  assert (H2 : le 2 (length (Cost.time (Cost.mkOpt [0; 1 # 2; 1] 1 0 0)))) by (cbn; lia).
  assert (Hs : Grid.strictly_increasing (Cost.time (Cost.mkOpt [0; 1 # 2; 1] 1 0 0)))
    by (cbn; repeat split; reflexivity).
  assert (Hck : forall k, (k < 1)%nat ->
     nth k (ErgodicGrad.ckeval (fun x => x) 1 [1] [1] (Cost.time (Cost.mkOpt [0; 1 # 2; 1] 1 0 0))
              [1 # 2; 1 # 2; 1 # 2]) 0 == nth k [1 # 2] 0) by (intros [|k] Hk; [vm_compute; reflexivity | lia]).
  assert (HX : Forall (fun x => 0 <= x <= Grid.wlimit) [1 # 2; 1 # 2; 1 # 2])
    by (repeat constructor; discriminate).
  assert (HU : Forall (fun u => u == 0) [0; 0; 0]) by (repeat constructor).
  assert (Hui : Cost.uinit (Cost.mkOpt [0; 1 # 2; 1] 1 0 0) * Cost.Quinit (Cost.mkOpt [0; 1 # 2; 1] 1 0 0) == 0)
    by reflexivity.
  split; [exact H2|]. split; [exact Hs|]. split; [reflexivity|]. split; [exact Hck|].
  split; [exact HX|]. split; [reflexivity|]. split; [exact HU|]. split; [exact Hui|].
  exact (update_traj_descent_zero (Cost.mkOpt [0; 1 # 2; 1] 1 0 0) (fun x => x) (fun x => x) 1
           [1] [1 # 2] [1] [1] 5 100 [1 # 2; 1 # 2; 1 # 2] [0; 0; 0] H2 Hs (Qeq_refl 0) Hck HX eq_refl HU Hui).
Defined.
